(** * DinoCrack: password decomposition and grammar-constrained generation

    A shallow embedding of the decomposition engine of
    [dinopass_generator.py] (class [DinoPassAnalyzer]) and of the generator
    of [cartesian_rule.py] (class [CartesianGenerator]), followed by the
    properties of the engine.

    Modelling conventions.
    - A Python [str] is a list of characters, [str := list ascii].  The
      passwords served by the service, the vocabulary and both leet tables
      are 7-bit ASCII text; the Unicode-aware methods [str.lower],
      [str.upper], [str.isalpha], [str.isdigit] and the regex class [\d]
      are modelled by their restriction to ASCII (codes 128..255 are
      treated as uncased symbols), and a property that depends on one of
      them is stated for ASCII text; [str.strip] is modelled on all the
      code points below 256.  The regular expressions of the source
      use explicit ranges ([A-Z], [a-z], [A-Za-z]) and are translated by
      hand, each next to the pattern it implements, with the semantics of
      the [re] module of Python 3.7 and later.
    - A Python [set] is a [gset]; [sorted(s)] sorts [elements s]; the
      iteration order of a set, where the source depends on it, is a
      parameter.  A [dict] whose iteration order the source uses is an
      association list in insertion order.
    - Python [int] is [Z]; [len] gives a [nat].
    - [print] calls are not modelled; the output file is the list of the
      lines written to it, in order. *)

From Stdlib Require Import Ascii String List ZArith NArith DecimalString Lia Bool.
From stdpp Require Import gmap strings list sorting.

Open Scope Z_scope.

(** ** Python strings *)

Abbreviation str := (list ascii).

(** A string literal. *)
Definition lit (s : string) : str := list_ascii_of_string s.

Module Py.

Definition code (c : ascii) : N := N_of_ascii c.

Definition in_range (lo hi : N) (c : ascii) : bool :=
  ((lo <=? code c) && (code c <=? hi))%N.

(** Regex classes [[A-Z]], [[a-z]], [[A-Za-z]] and (for ASCII) [\d]. *)
Definition is_upper (c : ascii) : bool := in_range 65 90 c.
Definition is_lower (c : ascii) : bool := in_range 97 122 c.
Definition is_alpha (c : ascii) : bool := is_upper c || is_lower c.
Definition is_digit (c : ascii) : bool := in_range 48 57 c.

Definition is_ascii (c : ascii) : bool := (code c <? 128)%N.

(** [c.isalpha()] and [c.isdigit()] on a one-character ASCII string (the
    methods also accept letters and digits beyond code 127, such as the
    superscript digits). *)
Definition isalpha_c (c : ascii) : bool := is_alpha c.
Definition isdigit_c (c : ascii) : bool := is_digit c.

(** [s.isdigit()] on an ASCII string: every character is a digit and there
    is at least one. *)
Definition isdigit (s : str) : bool :=
  negb (Nat.eqb (length s) 0) && forallb is_digit s.

(** [c.lower()] and [c.upper()] on an ASCII character; beyond code 127 the
    methods change case too, and [upper] may give two characters. *)
Definition lower_c (c : ascii) : ascii :=
  if is_upper c then ascii_of_N (code c + 32) else c.
Definition upper_c (c : ascii) : ascii :=
  if is_lower c then ascii_of_N (code c - 32) else c.

(** [s.lower()], [s.upper()], [s.capitalize()] on ASCII strings. *)
Definition lower (s : str) : str := map lower_c s.
Definition upper (s : str) : str := map upper_c s.
Definition capitalize (s : str) : str :=
  match s with
  | [] => []
  | c :: tl => upper_c c :: lower tl
  end.

(** [c in s] for a one-character string [c]. *)
Definition contains (c : ascii) (s : str) : bool :=
  existsb (Ascii.eqb c) s.

(** [s.replace(a, b)] for one-character strings [a] and [b]. *)
Definition replace (a b : ascii) (s : str) : str :=
  map (fun c => if Ascii.eqb c a then b else c) s.

(** [s[-2:]] and [s[:-2]]. *)
Definition last2 (s : str) : str := drop (length s - 2) s.
Definition but_last2 (s : str) : str := take (length s - 2) s.

(** [f"{n:02d}"]: decimal, sign first, zero-padded to width two. *)
Definition fmt02d (n : Z) : str :=
  let d := list_ascii_of_string (NilZero.string_of_int (Z.to_int n)) in
  match d with
  | [c] => ["0"%char; c]
  | _ => d
  end.

(** The order of [str] under [<=]: lexicographic on character codes. *)
Fixpoint leb (a b : str) : bool :=
  match a, b with
  | [], _ => true
  | _ :: _, [] => false
  | x :: a', y :: b' =>
      if (code x <? code y)%N then true
      else if (code y <? code x)%N then false
      else leb a' b'
  end.

Definition le (a b : str) : Prop := Is_true (leb a b).

#[global] Instance le_dec : RelDecision le.
Proof. intros a b. unfold le. apply _. Defined.

(** [sorted(xs)] on a list of strings, and [sorted(s)] on a set. *)
Definition sorted (xs : list str) : list str := merge_sort le xs.
Definition sorted_set (s : gset str) : list str := sorted (elements s).

End Py.

(** ** Text files *)

(** A text file is the text written to it; the file system maps names to
    texts.  Reading is in text mode with universal newlines; writing is
    modelled for a platform whose line separator is the newline. *)
Module PyIO.

Definition LF : ascii := ascii_of_N 10.
Definition CR : ascii := ascii_of_N 13.

(** [c.isspace()], which is what [strip] removes, on the code points below
    256: tab to carriage return, the four separators 28..31, the space,
    next line (133) and the no-break space (160). *)
Definition is_space (c : ascii) : bool :=
  Py.in_range 9 13 c || Py.in_range 28 32 c ||
  Ascii.eqb c (ascii_of_N 133) || Ascii.eqb c (ascii_of_N 160).

Fixpoint lstrip (s : str) : str :=
  match s with
  | [] => []
  | c :: tl => if is_space c then lstrip tl else s
  end.

Definition rstrip (s : str) : str := rev (lstrip (rev s)).

(** [s.strip()] *)
Definition strip (s : str) : str := rstrip (lstrip s).

(** What text mode delivers: ["\r\n"] and a lone ["\r"] become ["\n"]. *)
Fixpoint universal_newlines (s : str) : str :=
  match s with
  | [] => []
  | c :: tl =>
      if Ascii.eqb c CR then
        match tl with
        | c' :: tl' =>
            if Ascii.eqb c' LF then LF :: universal_newlines tl'
            else LF :: universal_newlines tl
        | [] => [LF]
        end
      else c :: universal_newlines tl
  end.

(** [for line in f]: the lines of a text, each with its newline; the last
    one has none when the text does not end with a newline. *)
Fixpoint lines (s : str) : list str :=
  match s with
  | [] => []
  | c :: tl =>
      if Ascii.eqb c LF then [c] :: lines tl
      else
        match lines tl with
        | [] => [[c]]
        | l :: ls => (c :: l) :: ls
        end
  end.

(** Opening a file for reading and iterating over it; [None] is
    [FileNotFoundError]. *)
Definition read_lines (fs : gmap string str) (name : string) : option (list str) :=
  (fun text => lines (universal_newlines text)) <$> fs !! name.


End PyIO.

(** ** [dinopass_generator.py]: class [DinoPassAnalyzer] *)

Module DinoPassAnalyzer.

(** A value of [leetspeak_map] is one substitute or a list of them. *)
Inductive leet_options : Type :=
| One (c : ascii)
| Several (cs : list ascii).

(** [if not isinstance(x, list): x = [x]] *)
Definition as_list (o : leet_options) : list ascii :=
  match o with
  | One c => [c]
  | Several cs => cs
  end.

Definition leetspeak_map : list (ascii * leet_options) :=
  [ ("a", One "@");
    ("c", Several ["("; "<"]);
    ("k", One "<");
    ("e", One "3");
    ("t", One "+");
    ("i", One "!");
    ("d", Several [")"; ">"]);
    ("s", One "$");
    ("f", One "=");
    ("j", One "]");
    ("l", One "[") ]%char.

Definition reverse_leet_map : list (ascii * list ascii) :=
  [ ("@", ["a"]);
    ("(", ["c"]);
    ("<", ["c"; "k"]);
    ("3", ["e"]);
    ("+", ["t"]);
    ("!", ["i"]);
    (")", ["d"]);
    (">", ["d"]);
    ("$", ["s"]);
    ("=", ["f"]);
    ("]", ["j"]);
    ("2", ["z"]);
    ("[", ["l"]) ]%char.

(** [d[k]] / [k in d] on a dict with one-character keys. *)
Fixpoint dict_get {V : Type} (d : list (ascii * V)) (k : ascii) : option V :=
  match d with
  | [] => None
  | (k', v) :: d' => if Ascii.eqb k k' then Some v else dict_get d' k
  end.

(** The record returned by [analyze_password_structure]. *)
Record analysis : Type := mk_analysis {
  adjective : str;
  noun : str;
  digits : str;
  original : str;
  clean_form : str
}.

(** The mutable attributes of the analyzer. *)
Record analyzer : Type := mk_analyzer {
  adjectives : gset str;
  nouns : gset str;
  password_patterns : list analysis
}.

(** The dict returned by [analyze_corpus]. *)
Record corpus_report : Type := mk_report {
  successful : Z;
  failed : Z;
  new_adjectives : Z;
  new_nouns : Z
}.

(** *** The token splitter (first half of [analyze_password_structure]) *)

(** Index of the first character of [s] in [[A-Z]], if any. *)
Fixpoint first_upper (s : str) : option nat :=
  match s with
  | [] => None
  | c :: tl => if Py.is_upper c then Some O else S <$> first_upper tl
  end.

(** [re.split(r'(?<!^)(?=[A-Z])', body, maxsplit=1)]: the pattern matches
    the empty string before an upper-case letter, except at position 0;
    the body is cut at the first such position. *)
Definition split_camel (body : str) : list str :=
  match body with
  | [] => [body]
  | c :: tl =>
      match first_upper tl with
      | Some j => [c :: take j tl; drop j tl]
      | None => [body]
      end
  end.

Definition newline : ascii := ascii_of_N 10.

Fixpoint take_while (p : ascii -> bool) (s : str) : str :=
  match s with
  | [] => []
  | c :: tl => if p c then c :: take_while p tl else []
  end.

Fixpoint drop_while (p : ascii -> bool) (s : str) : str :=
  match s with
  | [] => []
  | c :: tl => if p c then drop_while p tl else s
  end.

Definition not_newline (c : ascii) : bool := negb (Ascii.eqb c newline).

(** [.+$] anchored at the start of [s]: [.] is any character but a
    newline, and [$] matches at the end of the string or just before a
    newline that ends it.  Returns the text matched by [.+]. *)
Definition dot_plus_eol (s : str) : option str :=
  let run := take_while not_newline s in
  let rest := drop_while not_newline s in
  match run with
  | [] => None
  | _ :: _ =>
      match rest with
      | [] => Some run
      | [_] => Some run
      | _ => None
      end
  end.

(** [re.match(r'^([A-Za-z]+)([^A-Za-z].+)$', body)]: groups 1 and 2. *)
Definition match_boundary (body : str) : option (str * str) :=
  let g1 := take_while Py.is_alpha body in
  match g1, drop_while Py.is_alpha body with
  | _ :: _, c :: tl =>
      match dot_plus_eol tl with
      | Some t => Some (g1, c :: t)
      | None => None
      end
  | _, _ => None
  end.

(** Lines 148-170 of [analyze_password_structure], from
    [if not password or len(password) < 4] to the midpoint fallback: [None]
    is an early [return None]; [Some (left_, right_)] are the two
    fragments. *)
Definition token_split (password : str) : option (str * str) :=
  if (length password <? 4)%nat then None
  else
    let body := Py.but_last2 password in
    match split_camel body with
    | [left_; right_] => Some (left_, right_)
    | _ =>
        match match_boundary body with
        | Some (left_, right_) => Some (left_, right_)
        | None =>
            let mid := Nat.max 2 (length body / 2) in
            if (length body <=? mid)%nat then None
            else Some (take mid body, drop mid body)
        end
    end.

Section WithCollaborators.

(** [c in self.spell]: the dictionary collaborator. *)
Variable spell : str -> bool.

(** The order in which a [set] of strings is iterated. *)
Variable iter_order : gset str -> list str.

(** One round of the loop over [reverse_leet_map.items()]. *)
Definition deleet_round (candidates : gset str)
    (item : ascii * list ascii) : gset str :=
  let '(leet, normals) := item in
  set_bind (fun cand : str =>
              if Py.contains leet cand
              then list_to_set (map (fun n => Py.replace leet n cand) normals)
              else ({[ cand ]} : gset str))
           candidates.

Definition deleet_word (word : str) : str :=
  let candidates : gset str := {[ Py.lower word ]} in
  let apply_spellcheck :=
    existsb (fun item : ascii * list ascii => Py.contains (fst item) word)
      (List.filter (fun item : ascii * list ascii => (1 <? length (snd item))%nat)
         reverse_leet_map) in
  let candidates := foldl deleet_round candidates reverse_leet_map in
  (* re.sub(r'[^a-z]', '', c) *)
  let candidates : gset str := set_map (List.filter Py.is_lower) candidates in
  let first := match iter_order candidates with
               | c :: _ => c
               | [] => word
               end in
  if apply_spellcheck then
    match List.filter spell (iter_order candidates) with
    | c :: _ => c
    | [] => first
    end
  else first.

Definition analyze_password_structure (password : str) : option analysis :=
  match token_split password with
  | None => None
  | Some (left_, right_) =>
      let suffix := Py.last2 password in
      let left_clean := Py.lower (deleet_word left_) in
      let right_clean := Py.lower (deleet_word right_) in
      if (length left_clean <? 2)%nat || (length right_clean <? 2)%nat then None
      else
        let digits := if Py.isdigit suffix then suffix else [] in
        Some {| adjective := left_clean;
                noun := right_clean;
                digits := digits;
                original := password;
                clean_form := left_clean ++ Py.capitalize right_clean ++ digits |}
  end.

(** The loop state of [analyze_corpus]: the analyzer, the success
    counter and [failed_patterns]. *)
Definition corpus_step (st : analyzer * Z * list str) (password : str)
    : analyzer * Z * list str :=
  let '(self, successful_analyses, failed_patterns) := st in
  match analyze_password_structure password with
  | Some a =>
      ({| adjectives := {[ adjective a ]} ∪ adjectives self;
          nouns := {[ noun a ]} ∪ nouns self;
          password_patterns := password_patterns self ++ [a] |},
       successful_analyses + 1, failed_patterns)
  | None => (self, successful_analyses, failed_patterns ++ [password])
  end.

Definition analyze_corpus (self : analyzer) (passwords : list str)
    (append_mode : bool) : analyzer * corpus_report :=
  let self := if append_mode then self
              else {| adjectives := ∅; nouns := ∅; password_patterns := [] |} in
  let initial_adj_count := Z.of_nat (size (adjectives self)) in
  let initial_noun_count := Z.of_nat (size (nouns self)) in
  let '(self', successful_analyses, failed_patterns) :=
    foldl corpus_step (self, 0, []) passwords in
  (self',
   {| successful := successful_analyses;
      failed := Z.of_nat (length failed_patterns);
      new_adjectives := Z.of_nat (size (adjectives self')) - initial_adj_count;
      new_nouns := Z.of_nat (size (nouns self')) - initial_noun_count |}).

End WithCollaborators.

(** *** [apply_leet_transformations] *)

(** [variant[0].upper() + variant[1:]] when the first character is
    alphabetic, the string unchanged otherwise. *)
Definition cap_first (s : str) : str :=
  match s with
  | c :: tl => if Py.isalpha_c c then Py.upper_c c :: tl else s
  | [] => s
  end.

(** The body of [for i, char in enumerate(word_lower)]. *)
Definition leet_at (word_lower : str) (variations : gset str)
    (ic : nat * ascii) : gset str :=
  let '(i, char) := ic in
  match dict_get leetspeak_map char with
  | Some leet_options =>
      foldl (fun (vs : gset str) (leet_char : ascii) =>
               let variant_chars := <[ i := leet_char ]> word_lower in
               {[ cap_first variant_chars ]} ∪ vs)
            variations (as_list leet_options)
  | None => variations
  end.

Definition apply_leet_transformations (word : str) : list str :=
  match word with
  | [] => [word]
  | _ :: _ =>
      let word_lower := Py.lower word in
      let variations : gset str := {[ cap_first word ]} in
      let variations :=
        foldl (leet_at word_lower) variations
              (zip (seq 0 (length word_lower)) word_lower) in
      Py.sorted_set variations
  end.

(** *** [generate_wordlist_fast] *)

(** [for x in xs: if stop: break; body] *)
Fixpoint for_until {A S : Type} (stop : S -> bool) (xs : list A)
    (body : A -> S -> S) (s : S) : S :=
  match xs with
  | [] => s
  | x :: xs' => if stop s then s else for_until stop xs' body (body x s)
  end.

(** The counter and the lines written to [f]. *)
Record fast_state : Type := mk_fast_state {
  count : Z;
  f_lines : list str
}.

(** [range(100)] *)
Definition range100 : list Z := map Z.of_nat (seq 0 100).

Definition generate_wordlist_fast (self : analyzer) (max_combinations : option Z)
    : fast_state :=
  let noun_variations_map : gmap str (list str) :=
    foldl (fun (m : gmap str (list str)) (noun : str) =>
             <[ noun := apply_leet_transformations noun ]> m)
          ∅ (Py.sorted_set (nouns self)) in
  (* max_combinations and count >= max_combinations *)
  let full (st : fast_state) : bool :=
    match max_combinations with
    | Some m => negb (m =? 0) && (m <=? count st)
    | None => false
    end in
  for_until full (Py.sorted_set (adjectives self)) (fun adjective =>
    for_until full (Py.sorted_set (nouns self)) (fun noun =>
      let noun_variations := default [] (noun_variations_map !! noun) in
      for_until full noun_variations (fun noun_var =>
        for_until full range100 (fun i st =>
          let digits := Py.fmt02d i in
          let password := adjective ++ noun_var ++ digits in
          {| count := count st + 1;
             f_lines := f_lines st ++ [password] |}))))
    {| count := 0; f_lines := [] |}.

(** *** [save_components] and [load_components] *)


(** [set(line.strip() for line in f if line.strip())] *)
Definition read_words (file_lines : list str) : gset str :=
  list_to_set
    (map PyIO.strip
       (List.filter (fun line => negb (Nat.eqb (length (PyIO.strip line)) 0))
          file_lines)).

(** Returns the analyzer as the call leaves it and the boolean result;
    a missing file is the [FileNotFoundError] branch. *)
Definition load_components (self : analyzer) (adj_file noun_file : string)
    (fs : gmap string str) : analyzer * bool :=
  match PyIO.read_lines fs adj_file with
  | None => (self, false)
  | Some adj_lines =>
      let self := {| adjectives := read_words adj_lines;
                     nouns := nouns self;
                     password_patterns := password_patterns self |} in
      match PyIO.read_lines fs noun_file with
      | None => (self, false)
      | Some noun_lines =>
          ({| adjectives := adjectives self;
              nouns := read_words noun_lines;
              password_patterns := password_patterns self |}, true)
      end
  end.

End DinoPassAnalyzer.

(** ** Loops with an early [return] *)

Module Loop.

(** The outcome of a loop body: go on with the next iteration (also the
    effect of [continue]) or leave the enclosing function. *)
Inductive ctl (S R : Type) : Type :=
| Next (s : S)
| Return (r : R).
Arguments Next {S R} s.
Arguments Return {S R} r.

(** [for x in xs: body] *)
Fixpoint for_each {A S R : Type} (xs : list A) (body : A -> S -> ctl S R)
    (s : S) : ctl S R :=
  match xs with
  | [] => Next s
  | x :: xs' =>
      match body x s with
      | Next s' => for_each xs' body s'
      | Return r => Return r
      end
  end.

End Loop.

(** ** [cartesian_rule.py]: class [CartesianGenerator] *)

Module CartesianGenerator.

Import DinoPassAnalyzer Loop.

(** *** [__init__]: the two sets of leet characters *)

Definition add_substitutions (sets : gset ascii * gset ascii)
    (item : ascii * leet_options) : gset ascii * gset ascii :=
  foldl (fun (acc : gset ascii * gset ascii) (sub : ascii) =>
           if Py.isdigit_c sub
           then ({[ sub ]} ∪ fst acc, snd acc)
           else (fst acc, {[ sub ]} ∪ snd acc))
        sets (as_list (snd item)).

Definition numeric_leet_chars : gset ascii :=
  fst (foldl add_substitutions (∅, ∅) leetspeak_map)
  ∪ list_to_set ["0"; "1"; "2"; "4"; "5"; "6"; "7"; "8"; "9"]%char.

Definition symbol_leet_chars : gset ascii :=
  snd (foldl add_substitutions (∅, ∅) leetspeak_map).

(** *** The classifier *)

(** [re.sub(r'\d{2}$', '', text)]: two digits at the end of the text, or
    just before a newline that ends it, are removed. *)
Definition strip_suffix (text : str) : str :=
  match rev text with
  | d2 :: d1 :: pre =>
      if Py.is_digit d1 && Py.is_digit d2 then rev pre
      else
        match pre with
        | d0 :: pre' =>
            if Ascii.eqb d2 newline && Py.is_digit d0 && Py.is_digit d1
            then rev pre' ++ [d2]
            else text
        | [] => text
        end
  | _ => text
  end.

Definition has_leet_substitutions (text : str) : bool * bool * gset ascii :=
  let word_part := strip_suffix text in
  (* set(re.findall(r'[^a-zA-Z]', word_part)) *)
  let non_alpha_chars : gset ascii :=
    list_to_set (List.filter (fun c => negb (Py.is_alpha c)) word_part) in
  let numeric_leet_found := non_alpha_chars ∩ numeric_leet_chars in
  let symbol_leet_found := non_alpha_chars ∩ symbol_leet_chars in
  let other_numeric : gset ascii :=
    filter (fun c => Is_true (Py.isdigit_c c) ∧ c ∉ numeric_leet_chars)
           non_alpha_chars in
  let numeric_leet_found :=
    if decide (other_numeric = ∅) then numeric_leet_found
    else numeric_leet_found ∪ other_numeric in
  let has_numeric := (0 <? size numeric_leet_found)%nat in
  let has_symbol := (0 <? size symbol_leet_found)%nat in
  (has_numeric, has_symbol, non_alpha_chars).

Definition is_valid_leet_combination (text : str) : bool :=
  let '(has_numeric, has_symbol, _) := has_leet_substitutions text in
  if negb has_numeric && negb has_symbol then false
  else (has_numeric && negb has_symbol) || (has_symbol && negb has_numeric).

(** *** Writing a candidate *)

(** What a run of a generator mutates: the set [seen], the lines written
    to [out_f] and the two counters. *)
Record gen_state : Type := mk_gen_state {
  seen : gset str;
  out_f : list str;
  total_written : Z;
  rejected_mixed : Z
}.

Definition process_candidate (candidate : str) (st : gen_state)
    (dedupe : bool) : gen_state :=
  if negb (is_valid_leet_combination candidate) then
    {| seen := seen st; out_f := out_f st;
       total_written := total_written st;
       rejected_mixed := rejected_mixed st + 1 |}
  else if dedupe && bool_decide (candidate ∈ seen st) then st
  else
    {| seen := {[ candidate ]} ∪ seen st;
       out_f := out_f st ++ [candidate];
       total_written := total_written st + 1;
       rejected_mixed := rejected_mixed st |}.

(** *** Word variations *)

Record variations : Type := mk_variations {
  base : list str;
  numeric_leet : list str;
  symbol_leet : list str
}.

(** The keys ['base'], ['numeric_leet'], ['symbol_leet']. *)
Inductive vkey : Type := Base | NumericLeet | SymbolLeet.

Definition vget (v : variations) (k : vkey) : list str :=
  match k with
  | Base => base v
  | NumericLeet => numeric_leet v
  | SymbolLeet => symbol_leet v
  end.

(** The body of [for variant in leet_variants]. *)
Definition categorize (word : str) (is_adjective : bool) (vs : variations)
    (variant : str) : variations :=
  if decide (variant = word) then vs
  else
    let variant := if is_adjective then Py.lower variant else variant in
    let '(has_numeric, has_symbol, _) :=
      has_leet_substitutions (variant ++ lit "00") in
    if has_numeric && negb has_symbol then
      {| base := base vs; numeric_leet := numeric_leet vs ++ [variant];
         symbol_leet := symbol_leet vs |}
    else if has_symbol && negb has_numeric then
      {| base := base vs; numeric_leet := numeric_leet vs;
         symbol_leet := symbol_leet vs ++ [variant] |}
    else vs.

Definition get_word_variations (word : str) (is_adjective : bool) : variations :=
  let variations :=
    {| base := [if is_adjective then Py.lower word else Py.capitalize word];
       numeric_leet := [];
       symbol_leet := [] |} in
  let leet_variants := apply_leet_transformations word in
  foldl (categorize word is_adjective) variations leet_variants.

(** *** The generators *)

(** What a call leaves behind: its return value and the lines it wrote. *)
Record gen_result : Type := mk_gen_result {
  returned : Z;
  written : list str
}.

Definition finish (c : ctl gen_state gen_state) : gen_result :=
  match c with
  | Next st | Return st =>
      {| returned := total_written st; written := out_f st |}
  end.

(** [max_results and total_written >= max_results] *)
Definition reached (max_results : option Z) (st : gen_state) : bool :=
  match max_results with
  | Some m => negb (m =? 0) && (m <=? total_written st)
  | None => false
  end.

Definition no_variations : variations :=
  {| base := []; numeric_leet := []; symbol_leet := [] |}.

Definition valid_combinations : list (vkey * vkey) :=
  [ (Base, NumericLeet); (Base, SymbolLeet);
    (NumericLeet, Base); (SymbolLeet, Base) ].

Section Generate.

Variable self : analyzer.
Variable digits_range : list Z.
Variables min_length max_length : Z.
Variable max_results : option Z.
Variable dedupe : bool.

Definition st0 : gen_state :=
  {| seen := ∅; out_f := []; total_written := 0; rejected_mixed := 0 |}.

(** The body of [for n in digits_range] in
    [generate_comprehensive_wordlist]. *)
Definition comprehensive_body (core : str) (n : Z) (st : gen_state)
    : ctl gen_state gen_state :=
  let digits := Py.fmt02d n in
  let candidate := core ++ digits in
  let total_len := Z.of_nat (length candidate) in
  if (max_length <? total_len) || (total_len <? min_length) then Next st
  else
    let st := process_candidate candidate st dedupe in
    if reached max_results st then Return st else Next st.

(** The variations are computed once per word and kept in a dict; a
    key looked up below was always inserted before.  (The estimate
    [total_combinations] is only printed.) *)
Definition variations_map (words : list str) (is_adjective : bool)
    : gmap str variations :=
  foldl (fun (m : gmap str variations) (w : str) =>
           <[ w := get_word_variations w is_adjective ]> m) ∅ words.

Definition generate_comprehensive_wordlist : gen_result :=
  if bool_decide (adjectives self = ∅) || bool_decide (nouns self = ∅)
  then {| returned := 0; written := [] |}
  else
    let adj_variations_map :=
      variations_map (Py.sorted_set (adjectives self)) true in
    let noun_variations_map :=
      variations_map (Py.sorted_set (nouns self)) false in
    finish
      (for_each (Py.sorted_set (adjectives self)) (fun base_adj =>
         let adj_variations :=
           default no_variations (adj_variations_map !! base_adj) in
         for_each (Py.sorted_set (nouns self)) (fun base_noun =>
           let noun_variations :=
             default no_variations (noun_variations_map !! base_noun) in
           for_each valid_combinations (fun types =>
             let '(adj_type, noun_type) := types in
             for_each (vget adj_variations adj_type) (fun adj_var =>
               for_each (vget noun_variations noun_type) (fun noun_var =>
                 let core := adj_var ++ noun_var in
                 for_each digits_range (comprehensive_body core))))))
         st0).

(** The body of [for n in digits_range] in
    [generate_cartesian_with_rules]. *)
Definition cartesian_body (core : str) (n : Z) (st : gen_state)
    : ctl gen_state gen_state :=
  let digits := Py.fmt02d n in
  let candidate := core ++ digits in
  if (Z.of_nat (length candidate) <? min_length)
     || (max_length <? Z.of_nat (length candidate)) then Next st
  else
    let st := process_candidate candidate st dedupe in
    if reached max_results st then Return st else Next st.

(** [for adj in xs: for noun in ys: valid_pairs.append((adj, noun, label))] *)
Definition pairs (xs ys : list str) (label : string)
    : list (str * str * string) :=
  flat_map (fun adj => map (fun noun => (adj, noun, label)) ys) xs.

Definition generate_cartesian_with_rules : gen_result :=
  if bool_decide (adjectives self = ∅) || bool_decide (nouns self = ∅)
  then {| returned := 0; written := [] |}
  else
    finish
      (for_each (Py.sorted_set (adjectives self)) (fun base_adj =>
         let adj_variations := get_word_variations base_adj true in
         for_each (Py.sorted_set (nouns self)) (fun base_noun =>
           let noun_variations := get_word_variations base_noun false in
           let valid_pairs :=
             pairs (base adj_variations) (numeric_leet noun_variations) "base+numeric"
             ++ pairs (base adj_variations) (symbol_leet noun_variations) "base+symbol"
             ++ pairs (numeric_leet adj_variations) (base noun_variations) "numeric+base"
             ++ pairs (symbol_leet adj_variations) (base noun_variations) "symbol+base" in
           for_each valid_pairs (fun pair =>
             let '(adj_var, noun_var, combo_type) := pair in
             let core := adj_var ++ noun_var in
             for_each digits_range (cartesian_body core))))
         st0).

End Generate.

(** *** [test_leet_validation] *)

Definition test_cases : list (string * bool) :=
  [ ("w1ldLion42", true); ("wildL10n42", true); ("w!ldLion42", true);
    ("wildL!on42", true); ("wild7iger99", true); ("br@veEagle23", true);
    ("wildLion42", false); ("gentleTiger99", false);
    ("w1ldL!on42", false); ("w!ldL10n42", false); ("w1ld7!ger42", false);
    ("w!1dLion42", false) ]%string.

Definition test_leet_validation : bool :=
  foldl (fun (all_passed : bool) (case : string * bool) =>
           let '(password, expected) := case in
           let result := is_valid_leet_combination (lit password) in
           if Bool.eqb result expected then all_passed else false)
        true test_cases.

End CartesianGenerator.

(** ** Vocabulary of the properties *)

Module Props.

Import DinoPassAnalyzer CartesianGenerator.

(** Every character, for properties decided by enumeration. *)
Definition all_ascii : list ascii := map ascii_of_nat (seq 0 256).

(** Letter [l] has substitute [s] in [leetspeak_map]. *)
Definition maps_forward (l s : ascii) : bool :=
  match dict_get leetspeak_map l with
  | Some o => existsb (Ascii.eqb s) (as_list o)
  | None => false
  end.

(** Symbol [s] has candidate letter [l] in [reverse_leet_map]. *)
Definition maps_reverse (s l : ascii) : bool :=
  match dict_get reverse_leet_map s with
  | Some ls => existsb (Ascii.eqb l) ls
  | None => false
  end.

(** The candidate letters of a symbol in [reverse_leet_map]. *)
Definition letters_for (s : ascii) : list ascii :=
  default [] (dict_get reverse_leet_map s).

(** The letters of [leetspeak_map] that have [s] among their substitutes. *)
Definition preimage (s : ascii) : list ascii :=
  map fst (List.filter (fun item : ascii * leet_options =>
                          existsb (Ascii.eqb s) (as_list (snd item)))
                       leetspeak_map).

(** The body has an upper-case letter after position 0. *)
Definition has_internal_upper (body : str) : bool :=
  existsb Py.is_upper (tail body).

(** Number of positions at which two strings differ. *)
Fixpoint mismatches (a b : str) : nat :=
  match a, b with
  | x :: a', y :: b' =>
      ((if Ascii.eqb x y then 0 else 1) + mismatches a' b')%nat
  | _, _ => 0%nat
  end.

(** The password parses. *)
Definition parses (spell : str -> bool) (iter_order : gset str -> list str)
    (password : str) : bool :=
  match analyze_password_structure spell iter_order password with
  | Some _ => true
  | None => false
  end.

(** The two flags of the classifier. *)
Definition flags (text : str) : bool * bool :=
  fst (has_leet_substitutions text).

(** A property of the state of a run holds where the loop stands, whether
    it goes on or returns. *)
Definition holds (P : gen_state -> Prop) (c : Loop.ctl gen_state gen_state) : Prop :=
  match c with
  | Loop.Next st | Loop.Return st => P st
  end.

(** What a run of a generator maintains: every line written is a valid
    leet combination within the length bounds and was recorded in [seen],
    and with deduplication no line was written twice. *)
Definition run_invariant (min_length max_length : Z) (dedupe : bool)
    (st : gen_state) : Prop :=
  Forall (fun c : str =>
            is_valid_leet_combination c = true /\
            min_length <= Z.of_nat (length c) <= max_length) (out_f st) /\
  (forall c : str, c ∈ out_f st -> c ∈ seen st) /\
  (dedupe = true -> NoDup (out_f st)).

(** The letter of a symbol that has exactly one candidate letter in
    [reverse_leet_map]; any other character is left as it is. *)
Definition unleet (c : ascii) : ascii :=
  match dict_get reverse_leet_map c with
  | Some [n] => n
  | _ => c
  end.

(** A word of the vocabulary as the analyzer produces it: lower-case
    letters only, at least two of them. *)
Definition plain_word (w : str) : Prop :=
  forallb Py.is_lower w = true /\ (2 <= length w)%nat.

(** The records of the passwords of a batch that parse, in order. *)
Definition parsed (spell : str -> bool) (iter_order : gset str -> list str)
    (passwords : list str) : list analysis :=
  omap (analyze_password_structure spell iter_order) passwords.

(** The substitutes of [leetspeak_map] that are not digits. *)
Definition is_symbol (c : ascii) : bool := Py.contains c (lit "@(<+!)>$=][").

(** What the classifier answers on a word part: does it hold a digit,
    does it hold a symbol substitute, and its non-alphabetic characters. *)
Definition classify (word_part : str) : bool * bool * gset ascii :=
  (existsb Py.is_digit word_part, existsb is_symbol word_part,
   list_to_set (List.filter (fun c => negb (Py.is_alpha c)) word_part)).

(** The pairs of variants of an adjective and a noun, in the order of the
    four allowed combinations. *)
Definition variant_pairs (adj noun : str) : list (str * str) :=
  let adj_variations := get_word_variations adj true in
  let noun_variations := get_word_variations noun false in
  flat_map (fun types : vkey * vkey =>
              flat_map (fun a => map (fun b => (a, b))
                                     (vget noun_variations (snd types)))
                       (vget adj_variations (fst types)))
           valid_combinations.

(** The candidates in the order in which the generators form them. *)
Definition enumeration (self : analyzer) (digits_range : list Z) : list str :=
  flat_map (fun adj =>
    flat_map (fun noun =>
      flat_map (fun ab : str * str =>
                  map (fun n => (fst ab ++ snd ab) ++ Py.fmt02d n) digits_range)
               (variant_pairs adj noun))
      (Py.sorted_set (nouns self)))
    (Py.sorted_set (adjectives self)).

(** What the generators do with one candidate: the length test, then
    [process_candidate], then the test of [max_results]. *)
Definition emit (min_length max_length : Z) (max_results : option Z)
    (dedupe : bool) (candidate : str) (st : gen_state)
    : Loop.ctl gen_state gen_state :=
  if (Z.of_nat (length candidate) <? min_length)
     || (max_length <? Z.of_nat (length candidate)) then Loop.Next st
  else
    let st := process_candidate candidate st dedupe in
    if reached max_results st then Loop.Return st else Loop.Next st.

(** The candidate passes the length test and the classifier. *)
Definition accepted (min_length max_length : Z) (c : str) : bool :=
  (min_length <=? Z.of_nat (length c)) && (Z.of_nat (length c) <=? max_length)
  && is_valid_leet_combination c.

(** The lines of [generate_wordlist_fast] when nothing stops it. *)
Definition fast_enumeration (self : analyzer) : list str :=
  flat_map (fun adjective =>
    flat_map (fun noun =>
      flat_map (fun noun_var =>
                  map (fun i => adjective ++ noun_var ++ Py.fmt02d i) range100)
               (apply_leet_transformations noun))
      (Py.sorted_set (nouns self)))
    (Py.sorted_set (adjectives self)).

(** [max_combinations and count >= max_combinations] *)
Definition fast_full (max_combinations : option Z) (st : fast_state) : bool :=
  match max_combinations with
  | Some m => negb (m =? 0) && (m <=? count st)
  | None => false
  end.

(** How many more lines [max_combinations] allows; [None] is no limit. *)
Definition fast_room (max_combinations : option Z) (st : fast_state) : option nat :=
  match max_combinations with
  | Some m => if m =? 0 then None else Some (Z.to_nat (m - count st))
  | None => None
  end.

(** Writing the lines of [ls] as far as [max_combinations] allows. *)
Definition fast_push (max_combinations : option Z) (ls : list str)
    (st : fast_state) : fast_state :=
  let ls := match fast_room max_combinations st with
            | Some k => take k ls
            | None => ls
            end in
  {| count := count st + Z.of_nat (length ls); f_lines := f_lines st ++ ls |}.


(** The counter is the number of lines written, and [seen] holds the lines
    written. *)
Definition counted (st : gen_state) : Prop :=
  total_written st = Z.of_nat (length (out_f st)) /\
  (forall c : str, c ∈ seen st <-> c ∈ out_f st).

(** A small vocabulary, for running the engine on examples. *)
Definition demo : analyzer :=
  {| adjectives := list_to_set [lit "wild"; lit "red"];
     nouns := list_to_set [lit "lion"];
     password_patterns := [] |}.

(** Collaborators for the examples: a dictionary that knows every word,
    and sets iterated in the order of [elements]. *)
Definition any_word (w : str) : bool := true.

(** A dictionary that knows one word. *)
Definition only_word (known w : str) : bool := bool_decide (w = known).

End Props.

Import DinoPassAnalyzer CartesianGenerator Loop Props.

(** ** Characters *)

Lemma all_ascii_complete (c : ascii) : In c all_ascii.
Proof.
  unfold all_ascii. rewrite <- (ascii_nat_embedding c).
  apply in_map, in_seq. pose proof (nat_ascii_bounded c). lia.
Qed.

(** A boolean property of characters holds everywhere once it has been
    evaluated on the 256 characters. *)
Lemma forall_ascii (P : ascii -> bool) :
  forallb P all_ascii = true -> forall c, P c = true.
Proof.
  intros H c. rewrite forallb_forall in H. apply H, all_ascii_complete.
Qed.

Ltac by_enumeration c :=
  revert c;
  match goal with
  | |- forall c : ascii, @?P c = true =>
      apply (forall_ascii P); vm_compute; reflexivity
  end.

Lemma lower_c_idem c : Py.lower_c (Py.lower_c c) = Py.lower_c c.
Proof.
  apply Ascii.eqb_eq. by_enumeration c.
Qed.

Lemma lower_upper_c c : Py.lower_c (Py.upper_c c) = Py.lower_c c.
Proof.
  apply Ascii.eqb_eq. by_enumeration c.
Qed.

Lemma alpha_lower_c c : Py.is_alpha c = true -> Py.is_lower (Py.lower_c c) = true.
Proof.
  intros H.
  assert (G : forall x, implb (Py.is_alpha x) (Py.is_lower (Py.lower_c x)) = true)
    by (intros x; by_enumeration x).
  specialize (G c). rewrite H in G. exact G.
Qed.

Lemma alpha_upper_c c : Py.is_alpha c = true -> Py.is_upper (Py.upper_c c) = true.
Proof.
  intros H.
  assert (G : forall x, implb (Py.is_alpha x) (Py.is_upper (Py.upper_c x)) = true)
    by (intros x; by_enumeration x).
  specialize (G c). rewrite H in G. exact G.
Qed.

Lemma lower_not_upper c : Py.is_lower c = true -> Py.is_upper c = false.
Proof.
  intros H.
  assert (G : forall x, implb (Py.is_lower x) (negb (Py.is_upper x)) = true)
    by (intros x; by_enumeration x).
  specialize (G c). rewrite H in G. simpl in G. now apply negb_true_iff.
Qed.

Lemma lower_c_fixed c : Py.is_lower c = true -> Py.lower_c c = c.
Proof.
  intros H. unfold Py.lower_c. now rewrite (lower_not_upper c H).
Qed.

Lemma lower_is_alpha c : Py.is_lower c = true -> Py.is_alpha c = true.
Proof.
  intros H. unfold Py.is_alpha. rewrite H. apply orb_true_r.
Qed.

(** No key of [reverse_leet_map] is a letter. *)
Lemma reverse_keys_not_alpha c :
  Py.is_alpha c = true -> dict_get reverse_leet_map c = None.
Proof.
  intros H.
  assert (G : forall x, implb (Py.is_alpha x)
                match dict_get reverse_leet_map x with
                | None => true
                | Some _ => false
                end = true) by (intros x; by_enumeration x).
  specialize (G c). rewrite H in G.
  destruct (dict_get reverse_leet_map c); [discriminate G | reflexivity].
Qed.

(** ** The leet tables *)

(** C5, as stated, fails: the reverse table maps ['2'] to ['z'], and no
    letter of the forward table has ['2'] as a substitute. *)
Lemma reverse_map_extra_entry :
  maps_reverse "2" "z" = true /\ maps_forward "z" "2" = false /\
  ~ (forall s l, maps_reverse s l = true <-> maps_forward l s = true).
Proof.
  split; [reflexivity | split; [reflexivity |]].
  intros H. specialize (H "2"%char "z"%char).
  destruct H as [H _]. specialize (H eq_refl). discriminate H.
Qed.

(** C5, amended: [reverse_leet_map] is the inversion of [leetspeak_map]
    extended with the one entry ['2' -> 'z']: a symbol [s] maps to a letter
    [l] in the reverse table iff [l] maps to [s] in the forward table or
    [(s, l)] is [('2', 'z')]; the pair [('z', '2')] is not in the forward
    table; and a symbol has more than one candidate letter exactly when
    more than one letter of the forward table has it as a substitute,
    which is the case of ['<'] only. *)
Theorem reverse_map_is_inversion_plus_z :
  (forall s l : ascii,
      maps_reverse s l = true <->
      maps_forward l s = true \/ (s = "2"%char /\ l = "z"%char)) /\
  (forall l s : ascii, maps_forward l s = true -> maps_reverse s l = true) /\
  (forall s : ascii,
      (1 < length (letters_for s))%nat <-> (1 < length (preimage s))%nat) /\
  (forall s : ascii, (1 < length (letters_for s))%nat <-> s = "<"%char).
Proof.
  assert (A : forall s l,
             Bool.eqb (maps_reverse s l)
               (maps_forward l s || (Ascii.eqb s "2" && Ascii.eqb l "z")) = true).
  { intros s l.
    assert (G : forall x, forallb (fun y =>
               Bool.eqb (maps_reverse x y)
                 (maps_forward y x || (Ascii.eqb x "2" && Ascii.eqb y "z")))
               all_ascii = true) by (intros x; by_enumeration x).
    specialize (G s). rewrite forallb_forall in G.
    apply G, all_ascii_complete. }
  assert (B : forall s l : ascii,
             maps_reverse s l = true <->
             maps_forward l s = true \/ (s = "2"%char /\ l = "z"%char)).
  { intros s l. specialize (A s l). apply Bool.eqb_prop in A. rewrite A.
    rewrite orb_true_iff, andb_true_iff, !Ascii.eqb_eq. reflexivity. }
  split; [exact B | split; [|split]].
  - intros l s H. apply B. now left.
  - intros s.
    assert (G : Bool.eqb (1 <? length (letters_for s))%nat
                         (1 <? length (preimage s))%nat = true)
      by by_enumeration s.
    apply Bool.eqb_prop in G.
    rewrite <- !Nat.ltb_lt. now rewrite G.
  - intros s.
    assert (G : Bool.eqb (1 <? length (letters_for s))%nat
                         (Ascii.eqb s "<") = true)
      by by_enumeration s.
    apply Bool.eqb_prop in G.
    rewrite <- Nat.ltb_lt, G. apply Ascii.eqb_eq.
Qed.

Lemma reverse_map_is_inversion_plus_z_witness : maps_reverse "@" "a" = true.
Proof.
  apply (proj1 (proj2 reverse_map_is_inversion_plus_z) "a"%char "@"%char).
  reflexivity.
Defined.

(** ** The classifier *)

(** C6: the four documented scenarios of [has_leet_substitutions]:
    numeric only, symbol only, no leet, and both. *)
Theorem classifier_scenarios :
  flags (lit "w1ldLion42") = (true, false) /\
  flags (lit "w!ldL!on42") = (false, true) /\
  flags (lit "wildLion42") = (false, false) /\
  flags (lit "w1ldL!on42") = (true, true).
Proof. vm_compute. repeat split. Qed.

(** C2: [is_valid_leet_combination t] is true iff exactly one of the two
    flags of [has_leet_substitutions t] is true; it is false when neither
    is and false when both are. *)
Theorem valid_iff_exactly_one_flag (t : str) :
  (is_valid_leet_combination t = true <->
   xorb (fst (flags t)) (snd (flags t)) = true) /\
  (is_valid_leet_combination t = true <->
   flags t = (true, false) \/ flags t = (false, true)) /\
  (flags t = (false, false) -> is_valid_leet_combination t = false) /\
  (flags t = (true, true) -> is_valid_leet_combination t = false).
Proof.
  unfold is_valid_leet_combination, flags.
  destruct (has_leet_substitutions t) as [[hn hs] chars]. simpl.
  destruct hn, hs; simpl; repeat split; intros; try congruence; auto.
  all: try (destruct H; congruence).
Qed.

Lemma valid_iff_exactly_one_flag_witness :
  is_valid_leet_combination (lit "wildLion42") = false.
Proof.
  apply (proj1 (proj2 (proj2 (valid_iff_exactly_one_flag (lit "wildLion42"))))).
  vm_compute. reflexivity.
Defined.


(** ** Single-substitution variants *)

Lemma sorted_set_elem (X : gset str) (v : str) : v ∈ Py.sorted_set X <-> v ∈ X.
Proof.
  unfold Py.sorted_set, Py.sorted. rewrite merge_sort_Permutation.
  apply elem_of_elements.
Qed.

Lemma zip_seq_lookup (l : str) (k i : nat) (c : ascii) :
  (i, c) ∈ zip (seq k (length l)) l -> (k <= i)%nat /\ l !! (i - k)%nat = Some c.
Proof.
  revert k. induction l as [|x l IH]; intros k H; simpl in H.
  - inversion H.
  - apply elem_of_cons in H as [H|H].
    + inversion H; subst. split; [lia|]. now rewrite Nat.sub_diag.
    + apply IH in H as [Hk Hl]. split; [lia|].
      replace (i - k)%nat with (S (i - S k)) by lia. exact Hl.
Qed.

Lemma add_each_elem {A : Type} (f : A -> str) (l : list A) (acc : gset str) (v : str) :
  v ∈ foldl (fun (vs : gset str) (a : A) => {[ f a ]} ∪ vs) acc l ->
  v ∈ acc \/ exists a, a ∈ l /\ v = f a.
Proof.
  revert acc. induction l as [|a l IH]; intros acc H; simpl in H.
  - now left.
  - apply IH in H as [H|(b & Hb & ->)].
    + apply elem_of_union in H as [H|H].
      * apply elem_of_singleton in H. right. exists a. split; [left | exact H].
      * now left.
    + right. exists b. split; [now right | reflexivity].
Qed.

Lemma maps_forward_intro (c s : ascii) (o : leet_options) :
  dict_get leetspeak_map c = Some o -> s ∈ as_list o -> maps_forward c s = true.
Proof.
  intros Hc Hs. unfold maps_forward. rewrite Hc.
  apply existsb_exists. exists s. split.
  - now apply list_elem_of_In.
  - apply Ascii.eqb_refl.
Qed.

Lemma leet_at_elem (wl : str) (acc : gset str) (i : nat) (c : ascii) (v : str) :
  v ∈ leet_at wl acc (i, c) ->
  v ∈ acc \/ exists s, maps_forward c s = true /\ v = cap_first (<[ i := s ]> wl).
Proof.
  unfold leet_at. destruct (dict_get leetspeak_map c) as [o|] eqn:Hc.
  - intros H.
    apply (add_each_elem (fun s => cap_first (<[ i := s ]> wl))) in H
      as [H|(s & Hs & ->)].
    + now left.
    + right. exists s. split; [eapply maps_forward_intro; eassumption | reflexivity].
  - now left.
Qed.

Lemma leet_fold_elem (wl : str) (l : list (nat * ascii)) (acc : gset str) (v : str) :
  (forall i c, (i, c) ∈ l -> wl !! i = Some c) ->
  v ∈ foldl (leet_at wl) acc l ->
  v ∈ acc \/
  exists i c s, wl !! i = Some c /\ maps_forward c s = true /\
                v = cap_first (<[ i := s ]> wl).
Proof.
  revert acc. induction l as [|[i c] l IH]; intros acc Hl H; simpl in H.
  - now left.
  - apply IH in H as [H|H].
    + apply leet_at_elem in H as [H|(s & Hs & ->)].
      * now left.
      * right. exists i, c, s. split; [apply Hl; left | split; [exact Hs | reflexivity]].
    + now right.
    + intros j d Hj. apply Hl. now right.
Qed.

(** Where a variant comes from. *)
Lemma apply_leet_transformations_elem (word v : str) :
  v ∈ apply_leet_transformations word ->
  v = cap_first word \/
  exists i c s, Py.lower word !! i = Some c /\ maps_forward c s = true /\
                v = cap_first (<[ i := s ]> (Py.lower word)).
Proof.
  destruct word as [|a w].
  - simpl. intros H. apply list_elem_of_singleton in H. now left.
  - unfold apply_leet_transformations. intros H.
    apply sorted_set_elem in H.
    apply leet_fold_elem in H as [H|H].
    + apply elem_of_singleton in H. now left.
    + now right.
    + intros i c Hic. apply zip_seq_lookup in Hic as [_ Hic].
      now rewrite Nat.sub_0_r in Hic.
Qed.

Lemma lower_cap_first (s : str) : Py.lower (cap_first s) = Py.lower s.
Proof.
  destruct s as [|c tl]; [reflexivity|]. unfold cap_first.
  destruct (Py.isalpha_c c); [|reflexivity].
  simpl. now rewrite lower_upper_c.
Qed.

Lemma length_cap_first (s : str) : length (cap_first s) = length s.
Proof.
  destruct s as [|c tl]; [reflexivity|]. unfold cap_first.
  now destruct (Py.isalpha_c c).
Qed.

Lemma mismatches_refl (s : str) : mismatches s s = 0%nat.
Proof.
  induction s as [|c s IH]; [reflexivity|]. simpl.
  now rewrite Ascii.eqb_refl, IH.
Qed.

Lemma mismatches_insert (s : str) (i : nat) (c : ascii) :
  (mismatches (<[ i := c ]> s) s <= 1)%nat.
Proof.
  revert i. induction s as [|x s IH]; intros i; [simpl; lia|].
  destruct i as [|i]; simpl.
  - rewrite mismatches_refl. destruct (Ascii.eqb c x); lia.
  - rewrite Ascii.eqb_refl. apply IH.
Qed.

Lemma lower_insert (s : str) (i : nat) (c : ascii) :
  Py.lower (<[ i := c ]> s) = <[ i := Py.lower_c c ]> (Py.lower s).
Proof.
  revert i. induction s as [|x s IH]; intros i; [reflexivity|].
  destruct i as [|i]; simpl; [reflexivity|]. f_equal. apply IH.
Qed.

Lemma lower_idem (s : str) : Py.lower (Py.lower s) = Py.lower s.
Proof.
  induction s as [|x s IH]; [reflexivity|]. simpl.
  rewrite lower_c_idem. f_equal. exact IH.
Qed.

Lemma length_lower (s : str) : length (Py.lower s) = length s.
Proof. apply length_map. Qed.

Lemma jade_variants :
  apply_leet_transformations (lit "jade") =
  map lit ["J@de"; "Ja)e"; "Ja>e"; "Jad3"; "Jade"; "]ade"]%string.
Proof. vm_compute. reflexivity. Qed.

Ltac not_listed H :=
  repeat (apply elem_of_cons in H as [H|H]; [discriminate H|]);
  apply elem_of_nil in H; exact H.

(** C4: the docstring of [apply_leet_transformations] promises ["]ade"],
    ["ja]e"] and ["jad3"] from ["jade"], and the claim repeats it; the
    function returns neither ["ja]e"] nor ["jad3"], so the claim fails at
    ["jade"]. *)
Lemma jade_docstring_variants_missing :
  (lit "ja]e" ∉ apply_leet_transformations (lit "jade")) /\
  (lit "jad3" ∉ apply_leet_transformations (lit "jade")) /\
  ~ ((lit "]ade" ∈ apply_leet_transformations (lit "jade")) /\
     (lit "ja]e" ∈ apply_leet_transformations (lit "jade")) /\
     (lit "jad3" ∈ apply_leet_transformations (lit "jade")) /\
     (lit "]a]e" ∉ apply_leet_transformations (lit "jade"))).
Proof.
  rewrite jade_variants.
  assert (A : lit "ja]e" ∉ map lit ["J@de"; "Ja)e"; "Ja>e"; "Jad3"; "Jade"; "]ade"]%string).
  { intros H. vm_compute in H. not_listed H. }
  split; [exact A | split].
  - intros H. vm_compute in H. not_listed H.
  - intros (_ & H & _). exact (A H).
Qed.

(** What the function does return: the variants of ["jade"] are exactly
    ["J@de"], ["Ja)e"], ["Ja>e"], ["Jad3"], ["Jade"] and ["]ade"] (the
    letter d has the substitutes [)] and [>], and a variant that starts
    with a letter is returned capitalised); no variant has two
    substitutions such as ["]a]e"]; in general, for an ASCII word, every
    returned variant has the length of the word and, compared
    case-insensitively, differs from it at at most one position: it is the
    word with its first letter upper-cased, or the lower-cased word with
    one letter replaced by one of its substitutes and then its first
    letter upper-cased. *)
Theorem leet_variants_single_substitution :
  apply_leet_transformations (lit "jade") =
    map lit ["J@de"; "Ja)e"; "Ja>e"; "Jad3"; "Jade"; "]ade"]%string /\
  (lit "]a]e" ∉ apply_leet_transformations (lit "jade")) /\
  forall word v : str,
    forallb Py.is_ascii word = true ->
    v ∈ apply_leet_transformations word ->
    length v = length word /\
    (mismatches (Py.lower v) (Py.lower word) <= 1)%nat /\
    (v = cap_first word \/
     exists i c s, Py.lower word !! i = Some c /\ maps_forward c s = true /\
                   v = cap_first (<[ i := s ]> (Py.lower word))).
Proof.
  split; [exact jade_variants | split].
  - rewrite jade_variants. intros H. vm_compute in H. not_listed H.
  - intros word v _ Hv. apply apply_leet_transformations_elem in Hv.
    split; [|split; [|exact Hv]].
    + destruct Hv as [->|(i & c & s & _ & _ & ->)].
      * apply length_cap_first.
      * now rewrite length_cap_first, length_insert, length_lower.
    + destruct Hv as [->|(i & c & s & _ & _ & ->)].
      * rewrite lower_cap_first, mismatches_refl. lia.
      * rewrite lower_cap_first, lower_insert, lower_idem.
        apply mismatches_insert.
Qed.

Lemma leet_variants_single_substitution_witness :
  length (lit "Ja)e") = length (lit "jade") /\
  (mismatches (Py.lower (lit "Ja)e")) (Py.lower (lit "jade")) <= 1)%nat.
Proof.
  destruct leet_variants_single_substitution as (E & _ & G).
  destruct (G (lit "jade") (lit "Ja)e")) as (L & M & _).
  - reflexivity.
  - rewrite E. vm_compute. right. left.
  - split; [exact L | exact M].
Defined.


(** ** The token splitter *)

Lemma first_upper_none (s : str) :
  existsb Py.is_upper s = false -> first_upper s = None.
Proof.
  induction s as [|c s IH]; [reflexivity|]. simpl.
  destruct (Py.is_upper c); [discriminate|]. simpl.
  intros H. now rewrite IH.
Qed.

Lemma first_upper_found (s : str) :
  existsb Py.is_upper s = true -> exists j, first_upper s = Some j.
Proof.
  induction s as [|c s IH]; [discriminate|]. simpl.
  destruct (Py.is_upper c); [now exists 0%nat|]. simpl.
  intros H. destruct (IH H) as [j ->]. now exists (S j).
Qed.

(** The camelCase rule cuts the body iff it has an internal upper-case
    letter. *)
Lemma split_camel_none (body : str) :
  has_internal_upper body = false -> split_camel body = [body].
Proof.
  destruct body as [|c tl]; [reflexivity|]. unfold has_internal_upper. simpl.
  intros H. now rewrite first_upper_none.
Qed.

Lemma split_camel_cases (body : str) :
  (has_internal_upper body = false /\ split_camel body = [body]) \/
  (has_internal_upper body = true /\
   exists l r, split_camel body = [l; r] /\ body = l ++ r).
Proof.
  destruct (has_internal_upper body) eqn:H.
  - right. split; [reflexivity|].
    destruct body as [|c tl]; [discriminate|]. unfold split_camel.
    destruct (first_upper_found tl H) as [j ->].
    exists (c :: take j tl), (drop j tl). split; [reflexivity|].
    simpl. now rewrite take_drop.
  - left. split; [reflexivity | now apply split_camel_none].
Qed.



Lemma take_drop_while (p : ascii -> bool) (s : str) :
  take_while p s ++ drop_while p s = s.
Proof.
  induction s as [|x s IH]; [reflexivity|]. simpl.
  destruct (p x); [simpl; now rewrite IH | reflexivity].
Qed.


(** A match of the boundary rule cuts the body after its leading letters,
    and leaves at least two characters on the right. *)
Lemma match_boundary_inv (body l r : str) :
  match_boundary body = Some (l, r) ->
  l <> [] /\ forallb Py.is_alpha l = true /\
  (exists c tl, r = c :: tl /\ Py.is_alpha c = false /\ tl <> []) /\
  (body = l ++ r \/ body = l ++ r ++ [newline]).
Proof.
  unfold match_boundary. intros H.
  pose proof (take_drop_while Py.is_alpha body) as E.
  assert (A : forallb Py.is_alpha (take_while Py.is_alpha body) = true).
  { clear. induction body as [|x s IH]; [reflexivity|]. simpl.
    destruct (Py.is_alpha x) eqn:Hx; [simpl; now rewrite Hx | reflexivity]. }
  assert (B : forall c tl, drop_while Py.is_alpha body = c :: tl -> Py.is_alpha c = false).
  { clear. induction body as [|x s IH]; intros c tl; [discriminate|]. simpl.
    destruct (Py.is_alpha x) eqn:Hx; [apply IH|]. intros [= <- _]. exact Hx. }
  destruct (take_while Py.is_alpha body) as [|x g1] eqn:Hg; [discriminate|].
  destruct (drop_while Py.is_alpha body) as [|c tl] eqn:Hd; [discriminate|].
  unfold dot_plus_eol in H.
  pose proof (take_drop_while not_newline tl) as E2.
  assert (C : forall y rest, drop_while not_newline tl = y :: rest -> y = newline).
  { clear. induction tl as [|x s IH]; intros y rest; [discriminate|]. simpl.
    destruct (not_newline x) eqn:Hx; [apply IH|]. intros [= <- _].
    unfold not_newline in Hx. apply negb_false_iff in Hx. now apply Ascii.eqb_eq. }
  destruct (take_while not_newline tl) as [|y run] eqn:Hrun; [discriminate|].
  destruct (drop_while not_newline tl) as [|z [|z' rest]] eqn:Hrest;
    [| |discriminate]; injection H as <- <-.
  - split; [discriminate|]. split; [exact A|]. split.
    + exists c, (y :: run). split; [reflexivity|]. split; [now apply (B c tl)|discriminate].
    + left. rewrite <- E. f_equal. f_equal. rewrite <- E2. now rewrite app_nil_r.
  - split; [discriminate|]. split; [exact A|]. split.
    + exists c, (y :: run). split; [reflexivity|]. split; [now apply (B c tl)|discriminate].
    + right. rewrite <- E at 1. f_equal. simpl. f_equal. rewrite <- E2.
      rewrite (C z [] eq_refl). reflexivity.
Qed.


(** Where the splitter fails. *)
Lemma token_split_none (password : str) :
  let body := Py.but_last2 password in
  let mid := Nat.max 2 (length body / 2) in
  token_split password = None <->
  (length password < 4)%nat \/
  (has_internal_upper body = false /\ match_boundary body = None /\
   drop mid body = []).
Proof.
  intros body mid.
  assert (D : drop mid body = [] <-> (length body <= mid)%nat).
  { split.
    - intros H. apply (f_equal length) in H. rewrite length_drop in H.
      cbn [length] in H. lia.
    - apply drop_ge. }
  unfold token_split. fold body. fold mid.
  destruct (length password <? 4)%nat eqn:Hlen.
  - apply Nat.ltb_lt in Hlen. split; [now left | reflexivity].
  - apply Nat.ltb_ge in Hlen.
    destruct (split_camel_cases body) as [[Hup ->]|[Hup (l & r & -> & _)]].
    + destruct (match_boundary body) as [[l r]|] eqn:Hm.
      * split; [discriminate|]. intros [H|(_ & H & _)]; [lia | discriminate].
      * destruct (length body <=? mid)%nat eqn:Hle.
        -- apply Nat.leb_le in Hle. split; [|reflexivity].
           intros _. right. split; [exact Hup|]. split; [reflexivity|]. now apply D.
        -- apply Nat.leb_gt in Hle. split; [discriminate|].
           intros [H|(_ & _ & H)]; [lia|]. apply D in H. lia.
    + split; [discriminate|]. intros [H|(H & _)]; [lia | congruence].
Qed.

(** The fallback leaves an empty right fragment only on a body of two
    characters, so the splitter fails exactly on the passwords shorter
    than 4 characters and on those of 4 characters whose second character
    is not an upper-case letter. *)
Lemma token_split_fails_iff (password : str) :
  token_split password = None <->
  (length password < 4)%nat \/
  (length password = 4%nat /\ has_internal_upper (Py.but_last2 password) = false).
Proof.
  rewrite token_split_none.
  set (body := Py.but_last2 password).
  assert (L : length body = (length password - 2)%nat).
  { unfold body, Py.but_last2. rewrite length_take. lia. }
  split; intros [H|H]; [now left | | now left |].
  - destruct H as (Hup & _ & Hd).
    apply (f_equal length) in Hd. rewrite length_drop in Hd. cbn [length] in Hd.
    destruct (Nat.lt_ge_cases (length password) 4) as [Hlt|Hge]; [now left|].
    right. split; [|exact Hup].
    assert (length body / 2 < length body)%nat by (apply Nat.div_lt; lia).
    lia.
  - destruct H as (H4 & Hup). right. split; [exact Hup|]. split.
    + destruct (match_boundary body) as [[l r]|] eqn:Hm; [|reflexivity].
      apply match_boundary_inv in Hm
        as (Hl & _ & (c & tl & -> & _ & Htl) & Hb).
      exfalso. destruct l; [congruence|]. destruct tl; [congruence|].
      destruct Hb as [Hb|Hb]; apply (f_equal length) in Hb;
        rewrite L, H4 in Hb; rewrite ?length_app in Hb; simpl in Hb; lia.
    + apply drop_ge. rewrite L, H4. simpl. lia.
Qed.



(** ** The deleeter on plain words *)

Lemma dict_get_member {V : Type} (d : list (ascii * V)) (k : ascii) (v : V) :
  (k, v) ∈ d -> dict_get d k <> None.
Proof.
  induction d as [|[k' v'] d IH]; intros H; [inversion H|]. simpl.
  destruct (Ascii.eqb k k') eqn:E; [discriminate|].
  apply elem_of_cons in H as [H|H]; [|now apply IH].
  injection H as -> _. now rewrite Ascii.eqb_refl in E.
Qed.

Lemma contains_true (k : ascii) (w : str) : Py.contains k w = true -> k ∈ w.
Proof.
  unfold Py.contains. intros H. apply existsb_exists in H as (c & Hc & E).
  apply Ascii.eqb_eq in E. subst c. now apply list_elem_of_In.
Qed.

(** A word made of letters contains no key of [reverse_leet_map]. *)
Lemma alpha_no_leet (w : str) (k : ascii) (normals : list ascii) :
  forallb Py.is_alpha w = true -> (k, normals) ∈ reverse_leet_map ->
  Py.contains k w = false.
Proof.
  intros Hw Hk. destruct (Py.contains k w) eqn:E; [|reflexivity].
  apply contains_true, list_elem_of_In in E.
  rewrite forallb_forall in Hw. apply Hw, reverse_keys_not_alpha in E.
  now apply dict_get_member in Hk.
Qed.

Lemma deleet_round_absent (w : str) (leet : ascii) (normals : list ascii) :
  Py.contains leet w = false -> deleet_round {[ w ]} (leet, normals) = {[ w ]}.
Proof.
  intros H. unfold deleet_round. rewrite set_bind_singleton_L. now rewrite H.
Qed.

Lemma deleet_rounds_absent (w : str) (d : list (ascii * list ascii)) :
  (forall k normals, (k, normals) ∈ d -> Py.contains k w = false) ->
  foldl deleet_round {[ w ]} d = {[ w ]}.
Proof.
  induction d as [|[k normals] d IH]; intros H; [reflexivity|]. cbn [foldl].
  rewrite deleet_round_absent.
  - apply IH. intros k' n' Hk. apply (H k' n'). now right.
  - apply (H k normals). left.
Qed.

Lemma lower_alpha (w : str) :
  forallb Py.is_alpha w = true -> forallb Py.is_lower (Py.lower w) = true.
Proof.
  induction w as [|c w IH]; [reflexivity|]. simpl.
  intros H. apply andb_true_iff in H as [Hc Hw].
  now rewrite alpha_lower_c, IH.
Qed.

Lemma lower_fixed (w : str) :
  forallb Py.is_lower w = true -> Py.lower w = w.
Proof.
  induction w as [|c w IH]; [reflexivity|]. simpl.
  intros H. apply andb_true_iff in H as [Hc Hw].
  now rewrite lower_c_fixed, IH.
Qed.

Lemma lower_all_alpha (w : str) :
  forallb Py.is_lower w = true -> forallb Py.is_alpha w = true.
Proof.
  intros H. apply forallb_forall. intros c Hc.
  rewrite forallb_forall in H. now apply lower_is_alpha, H.
Qed.

Lemma filter_all (p : ascii -> bool) (w : str) :
  forallb p w = true -> List.filter p w = w.
Proof.
  induction w as [|c w IH]; [reflexivity|]. simpl.
  intros H. apply andb_true_iff in H as [Hc Hw].
  now rewrite Hc, IH.
Qed.

Section DeleetPlain.

Variable spell : str -> bool.
Variable iter_order : gset str -> list str.
Hypothesis iter_order_perm : forall X : gset str, iter_order X ≡ₚ elements X.

Lemma iter_order_singleton (w : str) : iter_order {[ w ]} = [w].
Proof.
  apply Permutation_singleton_r. rewrite iter_order_perm.
  now rewrite elements_singleton.
Qed.

(** On a word made of letters the deleeter only lower-cases. *)
Lemma deleet_word_alpha (word : str) :
  forallb Py.is_alpha word = true ->
  deleet_word spell iter_order word = Py.lower word.
Proof.
  intros Hw. unfold deleet_word.
  assert (Hl : forallb Py.is_lower (Py.lower word) = true) by now apply lower_alpha.
  rewrite deleet_rounds_absent.
  2:{ intros k normals Hk. eapply alpha_no_leet; [|exact Hk].
      now apply lower_all_alpha. }
  rewrite set_map_singleton_L, (filter_all _ _ Hl), iter_order_singleton.
  match goal with
  | |- (if ?b then _ else _) = _ => assert (E : b = false)
  end.
  { destruct (existsb _ _) eqn:E; [|reflexivity].
    apply existsb_exists in E as ([k normals] & Hin & Hc).
    apply filter_In in Hin as [Hin _]. simpl in Hc.
    apply list_elem_of_In in Hin.
    now rewrite (alpha_no_leet word k normals Hw Hin) in Hc. }
  now rewrite E.
Qed.

End DeleetPlain.

Lemma first_upper_app (l : str) (c : ascii) (r : str) :
  forallb Py.is_lower l = true -> Py.is_upper c = true ->
  first_upper (l ++ c :: r) = Some (length l).
Proof.
  intros Hl Hc. induction l as [|x l IH]; simpl.
  - now rewrite Hc.
  - simpl in Hl. apply andb_true_iff in Hl as [Hx Hl].
    rewrite (lower_not_upper x Hx), (IH Hl). reflexivity.
Qed.

Lemma but_last2_app (s : str) (a b : ascii) : Py.but_last2 (s ++ [a; b]) = s.
Proof.
  unfold Py.but_last2. rewrite length_app. simpl.
  replace (length s + 2 - 2)%nat with (length s) by lia.
  apply take_app_length.
Qed.

Lemma last2_app (s : str) (a b : ascii) : Py.last2 (s ++ [a; b]) = [a; b].
Proof.
  unfold Py.last2. rewrite length_app. simpl.
  replace (length s + 2 - 2)%nat with (length s) by lia.
  apply drop_app_length.
Qed.

Lemma capitalize_alpha (w : str) :
  forallb Py.is_alpha w = true -> forallb Py.is_alpha (Py.capitalize w) = true.
Proof.
  destruct w as [|c w]; [reflexivity|]. simpl.
  intros H. apply andb_true_iff in H as [Hc Hw].
  apply andb_true_iff. split.
  - unfold Py.is_alpha. now rewrite (alpha_upper_c c Hc).
  - now apply lower_all_alpha, lower_alpha.
Qed.

Lemma lower_capitalize (w : str) : Py.lower (Py.capitalize w) = Py.lower w.
Proof.
  destruct w as [|c w]; [reflexivity|]. simpl.
  now rewrite lower_upper_c, lower_idem.
Qed.


(** The ambiguous symbol [<] is resolved by the dictionary. *)
Example deleet_ambiguous :
  deleet_word (only_word (lit "cat")) elements (lit "<at") = lit "cat" /\
  deleet_word (only_word (lit "kit")) elements (lit "<it") = lit "kit" /\
  deleet_word any_word elements (lit "w!l)") = lit "wild".
Proof. vm_compute. repeat split. Qed.

(** ** Round trip *)

Lemma token_split_camel (adj nn : str) :
  forallb Py.is_lower adj = true -> forallb Py.is_alpha nn = true ->
  adj <> [] -> nn <> [] -> (2 <= length adj + length nn)%nat ->
  token_split (adj ++ Py.capitalize nn ++ lit "42") = Some (adj, Py.capitalize nn).
Proof.
  intros Hadj Hnn Ha Hn Hlen. unfold token_split.
  assert (L : length (Py.capitalize nn) = length nn).
  { destruct nn; [reflexivity|]. simpl. now rewrite length_lower. }
  assert (E : (length (adj ++ Py.capitalize nn ++ lit "42") <? 4)%nat = false).
  { apply Nat.ltb_ge. rewrite !length_app, L. simpl. lia. }
  rewrite E, app_assoc. change (lit "42") with ["4"; "2"]%char.
  rewrite but_last2_app.
  destruct adj as [|a adj]; [congruence|]. destruct nn as [|n nn]; [congruence|].
  simpl in Hadj, Hnn. apply andb_true_iff in Hadj as [_ Hadj].
  apply andb_true_iff in Hnn as [Hn0 _].
  cbn [Py.capitalize app split_camel].
  rewrite (first_upper_app adj _ _ Hadj (alpha_upper_c n Hn0)).
  now rewrite take_app_length, drop_app_length.
Qed.

(** C7: for an all-lower-case alphabetic adjective and an alphabetic noun,
    each of at least 2 letters, analysing [adjective + noun.capitalize() +
    "42"] succeeds and gives back the adjective and the noun, compared
    case-insensitively. *)
Theorem analyze_roundtrip (spell : str -> bool) (iter_order : gset str -> list str)
    (adj nn : str) :
  (forall X : gset str, iter_order X ≡ₚ elements X) ->
  forallb Py.is_lower adj = true -> forallb Py.is_alpha nn = true ->
  (2 <= length adj)%nat -> (2 <= length nn)%nat ->
  exists a : analysis,
    analyze_password_structure spell iter_order
      (adj ++ Py.capitalize nn ++ lit "42") = Some a /\
    adjective a = adj /\ noun a = Py.lower nn /\
    Py.lower (adjective a) = Py.lower adj /\ Py.lower (noun a) = Py.lower nn.
Proof.
  intros Hperm Hadj Hnn Hla Hln.
  unfold analyze_password_structure.
  rewrite token_split_camel; auto; try lia.
  2,3: intros ->; simpl in *; lia.
  rewrite !(deleet_word_alpha spell iter_order Hperm).
  2: now apply capitalize_alpha.
  2: now apply lower_all_alpha.
  rewrite !lower_idem, lower_capitalize, (lower_fixed adj Hadj).
  rewrite length_lower.
  assert (E1 : (length adj <? 2)%nat = false) by now apply Nat.ltb_ge.
  assert (E2 : (length nn <? 2)%nat = false) by now apply Nat.ltb_ge.
  rewrite E1, E2. simpl.
  eexists. split; [reflexivity|]. simpl.
  rewrite lower_idem, (lower_fixed adj Hadj). auto.
Qed.

Lemma analyze_roundtrip_witness :
  exists a : analysis,
    analyze_password_structure any_word elements
      (lit "wild" ++ Py.capitalize (lit "lion") ++ lit "42") = Some a /\
    adjective a = lit "wild" /\ noun a = Py.lower (lit "lion") /\
    Py.lower (adjective a) = Py.lower (lit "wild") /\
    Py.lower (noun a) = Py.lower (lit "lion").
Proof.
  apply (analyze_roundtrip any_word elements (lit "wild") (lit "lion")).
  - intros X. reflexivity.
  - reflexivity.
  - reflexivity.
  - simpl. lia.
  - simpl. lia.
Defined.

(** ** Corpus analysis *)

Section Corpus.

Variable spell : str -> bool.
Variable iter_order : gset str -> list str.

Abbreviation aps := (analyze_password_structure spell iter_order).
Abbreviation clean w := (Py.lower (deleet_word spell iter_order w)).

Lemma analyze_none_iff (p : str) :
  aps p = None <->
  (length p < 4)%nat \/ token_split p = None \/
  exists l r, token_split p = Some (l, r) /\
              ((length (clean l) < 2)%nat \/ (length (clean r) < 2)%nat).
Proof.
  unfold analyze_password_structure.
  destruct (token_split p) as [[l r]|] eqn:Ht.
  - assert (Hlen : ~ (length p < 4)%nat).
    { intros H. unfold token_split in Ht. apply Nat.ltb_lt in H.
      rewrite H in Ht. discriminate. }
    destruct (_ || _) eqn:E.
    + split; [|reflexivity]. intros _. right. right. exists l, r.
      split; [reflexivity|]. apply orb_true_iff in E.
      rewrite !Nat.ltb_lt in E. exact E.
    + split; [discriminate|].
      intros [H|[H|(l' & r' & [= <- <-] & H)]]; [contradiction | discriminate |].
      apply orb_false_iff in E. rewrite !Nat.ltb_ge in E. lia.
  - split; [|reflexivity]. intros _. right. now left.
Qed.

Lemma corpus_step_failure (self : analyzer) (n : Z) (fp : list str) (p : str) :
  aps p = None ->
  corpus_step spell iter_order (self, n, fp) p = (self, n, fp ++ [p]).
Proof. intros H. unfold corpus_step. now rewrite H. Qed.

Lemma corpus_step_success (self : analyzer) (n : Z) (fp : list str) (p : str)
    (a : analysis) :
  aps p = Some a ->
  corpus_step spell iter_order (self, n, fp) p =
  ({| adjectives := {[ adjective a ]} ∪ adjectives self;
      nouns := {[ noun a ]} ∪ nouns self;
      password_patterns := password_patterns self ++ [a] |}, n + 1, fp).
Proof. intros H. unfold corpus_step. now rewrite H. Qed.

(** [failed_patterns] does not influence the rest of the loop state. *)
Lemma corpus_loop_failed_irrelevant (l : list str) (self : analyzer) (n : Z)
    (f1 f2 : list str) :
  fst (foldl (corpus_step spell iter_order) (self, n, f1) l) =
  fst (foldl (corpus_step spell iter_order) (self, n, f2) l).
Proof.
  revert self n f1 f2. induction l as [|x l IH]; intros self n f1 f2; [reflexivity|].
  cbn [foldl]. destruct (aps x) as [a|] eqn:Hx.
  - rewrite !(corpus_step_success _ _ _ _ a Hx). apply IH.
  - rewrite !(corpus_step_failure _ _ _ _ Hx). apply IH.
Qed.

(** The loop of [analyze_corpus] sees only the passwords that parse, and
    collects the others in [failed_patterns]. *)
Lemma corpus_loop_filter (passwords : list str) (self : analyzer) (n : Z)
    (fp : list str) :
  foldl (corpus_step spell iter_order) (self, n, fp) passwords =
  (fst (foldl (corpus_step spell iter_order) (self, n, fp)
          (List.filter (parses spell iter_order) passwords)),
   fp ++ List.filter (fun p => negb (parses spell iter_order p)) passwords).
Proof.
  revert self n fp. induction passwords as [|p ps IH]; intros self n fp.
  - simpl. now rewrite app_nil_r.
  - cbn [foldl List.filter].
    destruct (parses spell iter_order p) eqn:Hpp; cbn [negb foldl];
      unfold parses in Hpp; destruct (aps p) as [a|] eqn:Hp; try discriminate.
    + rewrite !(corpus_step_success _ _ _ _ a Hp). apply IH.
    + rewrite (corpus_step_failure _ _ _ _ Hp), IH.
      rewrite <- app_assoc. f_equal.
      apply corpus_loop_failed_irrelevant.
Qed.

(** The success counter counts the iterations that parse. *)
Lemma corpus_loop_count (passwords : list str) (self : analyzer) (n : Z)
    (fp : list str) :
  snd (fst (foldl (corpus_step spell iter_order) (self, n, fp) passwords)) =
  n + Z.of_nat (length (List.filter (parses spell iter_order) passwords)).
Proof.
  revert self n fp. induction passwords as [|p ps IH]; intros self n fp.
  - simpl. lia.
  - cbn [foldl List.filter].
    destruct (parses spell iter_order p) eqn:Hpp;
      unfold parses in Hpp; destruct (aps p) as [a|] eqn:Hp; try discriminate.
    + rewrite (corpus_step_success _ _ _ _ a Hp), IH. cbn [length]. lia.
    + rewrite (corpus_step_failure _ _ _ _ Hp). apply IH.
Qed.

(** C8: a password fails to parse exactly when it is shorter than 4
    characters, the splitter fails, or a deleeted fragment is shorter
    than 2 characters; such a password leaves the adjectives, the nouns
    and the log unchanged and is added to the failures; over a batch,
    the analyzer ends as if only the parsing passwords had been given,
    and the failures are counted.  The model is a total function: no
    step of it can raise. *)
Theorem parse_failures_skipped :
  (forall p : str,
      parses spell iter_order p = false <->
      (length p < 4)%nat \/ token_split p = None \/
      exists l r, token_split p = Some (l, r) /\
                  ((length (clean l) < 2)%nat \/ (length (clean r) < 2)%nat)) /\
  (forall (self : analyzer) (n : Z) (fp : list str) (p : str),
      parses spell iter_order p = false ->
      corpus_step spell iter_order (self, n, fp) p = (self, n, fp ++ [p])) /\
  (forall (self : analyzer) (passwords : list str) (append_mode : bool),
      let kept := List.filter (parses spell iter_order) passwords in
      let skipped :=
        List.filter (fun p => negb (parses spell iter_order p)) passwords in
      fst (analyze_corpus spell iter_order self passwords append_mode) =
        fst (analyze_corpus spell iter_order self kept append_mode) /\
      failed (snd (analyze_corpus spell iter_order self passwords append_mode)) =
        Z.of_nat (length skipped) /\
      successful (snd (analyze_corpus spell iter_order self passwords append_mode)) =
        Z.of_nat (length kept)).
Proof.
  assert (P : forall p, parses spell iter_order p = false <-> aps p = None).
  { intros p. unfold parses. destruct (aps p); split; congruence. }
  split; [|split].
  - intros p. rewrite P. apply analyze_none_iff.
  - intros self n fp p Hp. apply corpus_step_failure. now apply P.
  - intros self passwords append_mode kept skipped.
    unfold analyze_corpus.
    set (self0 := if append_mode then self else _).
    pose proof (corpus_loop_filter passwords self0 0 []) as E.
    pose proof (corpus_loop_count passwords self0 0 []) as C.
    fold kept skipped in E, C.
    destruct (foldl _ (self0, 0, []) passwords) as [[s1 n1] f1].
    destruct (foldl _ (self0, 0, []) kept) as [[s2 n2] f2].
    simpl in E, C. injection E as -> -> ->. simpl.
    split; [reflexivity|]. split; [reflexivity | lia].
Qed.

End Corpus.

Lemma parse_failures_skipped_witness :
  corpus_step any_word elements (demo, 0, []) (lit "ab4") =
  (demo, 0, [lit "ab4"]).
Proof.
  apply (proj1 (proj2 (parse_failures_skipped any_word elements))).
  vm_compute. reflexivity.
Defined.

(** A batch with one password that is too short and one whose suffix is
    not numeric. *)
Example corpus_batch :
  let '(self, report) :=
    analyze_corpus any_word elements demo
      [lit "wildLion42"; lit "ab4"; lit "br@veEagle4x"] true in
  (Py.sorted_set (adjectives self), Py.sorted_set (nouns self),
   map original (password_patterns self), report) =
  (map lit ["brave"; "red"; "wild"]%string, map lit ["eagle"; "lion"]%string,
   map lit ["wildLion42"; "br@veEagle4x"]%string,
   {| successful := 2; failed := 1; new_adjectives := 1; new_nouns := 1 |}).
Proof. vm_compute. reflexivity. Qed.


(** ** The generators *)

(** A property kept by every iteration is kept by the loop. *)
Lemma for_each_holds {A : Type} (P : gen_state -> Prop) (xs : list A)
    (body : A -> gen_state -> ctl gen_state gen_state) (st : gen_state) :
  (forall x s, P s -> holds P (body x s)) ->
  P st -> holds P (for_each xs body st).
Proof.
  intros Hbody. revert st. induction xs as [|x xs IH]; intros st Hst.
  - exact Hst.
  - simpl. specialize (Hbody x st Hst).
    destruct (body x st) as [s'|r]; [now apply IH | exact Hbody].
Qed.

Section Runs.

Variable self : analyzer.
Variable digits_range : list Z.
Variables min_length max_length : Z.
Variable max_results : option Z.
Variable dedupe : bool.

Abbreviation inv := (run_invariant min_length max_length dedupe).

Lemma st0_inv : inv st0.
Proof.
  split; [constructor | split].
  - intros c H. inversion H.
  - intros _. constructor.
Qed.

Lemma process_candidate_inv (candidate : str) (st : gen_state) :
  min_length <= Z.of_nat (length candidate) <= max_length ->
  inv st -> inv (process_candidate candidate st dedupe).
Proof.
  intros Hlen (Hok & Hseen & Hnd). unfold process_candidate.
  destruct (is_valid_leet_combination candidate) eqn:Hv; simpl.
  - destruct (dedupe && bool_decide (candidate ∈ seen st)) eqn:Hd.
    + now split.
    + split; [|split]; simpl.
      * apply Forall_app. split; [exact Hok|]. now repeat constructor.
      * intros c Hc. apply elem_of_app in Hc as [Hc|Hc].
        -- apply elem_of_union. right. now apply Hseen.
        -- apply list_elem_of_singleton in Hc. subst c.
           apply elem_of_union. left. now apply elem_of_singleton.
      * intros ->. simpl in Hd. apply bool_decide_eq_false in Hd.
        apply NoDup_app. split; [now apply Hnd|]. split.
        -- intros c Hc Hc'. apply list_elem_of_singleton in Hc'. subst c.
           now apply Hd, Hseen.
        -- apply NoDup_singleton.
  - now split.
Qed.

Lemma comprehensive_body_inv (core : str) (n : Z) (st : gen_state) :
  inv st ->
  holds inv (comprehensive_body min_length max_length max_results dedupe core n st).
Proof.
  intros Hst. unfold comprehensive_body.
  destruct (_ || _) eqn:Hlen; [exact Hst|].
  apply orb_false_iff in Hlen as [H1 H2].
  apply Z.ltb_ge in H1, H2.
  assert (Hp := process_candidate_inv (core ++ Py.fmt02d n) st (conj H2 H1) Hst).
  now destruct (reached _ _).
Qed.

Lemma cartesian_body_inv (core : str) (n : Z) (st : gen_state) :
  inv st ->
  holds inv (cartesian_body min_length max_length max_results dedupe core n st).
Proof.
  intros Hst. unfold cartesian_body.
  destruct (_ || _) eqn:Hlen; [exact Hst|].
  apply orb_false_iff in Hlen as [H1 H2].
  apply Z.ltb_ge in H1, H2.
  assert (Hp := process_candidate_inv (core ++ Py.fmt02d n) st (conj H1 H2) Hst).
  now destruct (reached _ _).
Qed.

Lemma finish_written (c : ctl gen_state gen_state) :
  holds inv c ->
  run_invariant min_length max_length dedupe
    {| seen := match c with Next st | Return st => seen st end;
       out_f := written (finish c);
       total_written := returned (finish c);
       rejected_mixed := 0 |}.
Proof. destruct c as [st|st]; intros H; exact H. Qed.

(** The lines written by a run of either generator satisfy the invariant. *)
Lemma written_inv (lines : list str) :
  lines = written (generate_comprehensive_wordlist self digits_range
                     min_length max_length max_results dedupe) \/
  lines = written (generate_cartesian_with_rules self digits_range
                     min_length max_length max_results dedupe) ->
  Forall (fun c : str =>
            is_valid_leet_combination c = true /\
            min_length <= Z.of_nat (length c) <= max_length) lines /\
  (dedupe = true -> NoDup lines).
Proof.
  assert (E : Forall (fun c : str =>
            is_valid_leet_combination c = true /\
            min_length <= Z.of_nat (length c) <= max_length) [] /\
            (dedupe = true -> NoDup (@nil str))).
  { split; [constructor | intros _; constructor]. }
  assert (F : forall c, holds inv c ->
            Forall (fun c : str =>
              is_valid_leet_combination c = true /\
              min_length <= Z.of_nat (length c) <= max_length) (written (finish c)) /\
            (dedupe = true -> NoDup (written (finish c)))).
  { intros c H. apply finish_written in H as (H1 & _ & H2). now split. }
  intros [-> | ->].
  - unfold generate_comprehensive_wordlist.
    destruct (_ || _); [exact E|]. apply F.
    apply for_each_holds; [|exact st0_inv]. intros base_adj s1 H1.
    apply for_each_holds; [|exact H1]. intros base_noun s2 H2.
    apply for_each_holds; [|exact H2]. intros [adj_type noun_type] s3 H3.
    apply for_each_holds; [|exact H3]. intros adj_var s4 H4.
    apply for_each_holds; [|exact H4]. intros noun_var s5 H5.
    apply for_each_holds; [|exact H5]. intros n s6 H6.
    now apply comprehensive_body_inv.
  - unfold generate_cartesian_with_rules.
    destruct (_ || _); [exact E|]. apply F.
    apply for_each_holds; [|exact st0_inv]. intros base_adj s1 H1.
    apply for_each_holds; [|exact H1]. intros base_noun s2 H2.
    apply for_each_holds; [|exact H2]. intros [[adj_var noun_var] combo_type] s3 H3.
    apply for_each_holds; [|exact H3]. intros n s4 H4.
    now apply cartesian_body_inv.
Qed.

End Runs.

(** C1: every candidate written by [generate_comprehensive_wordlist] and
    by [generate_cartesian_with_rules] passes
    [is_valid_leet_combination]: its flags are neither both false (base +
    base) nor both true (mixed leet). *)
Theorem emitted_candidates_valid (self : analyzer) (digits_range : list Z)
    (min_length max_length : Z) (max_results : option Z) (dedupe : bool) :
  Forall (fun c : str =>
            is_valid_leet_combination c = true /\
            flags c <> (false, false) /\ flags c <> (true, true))
         (written (generate_comprehensive_wordlist self digits_range
                     min_length max_length max_results dedupe)) /\
  Forall (fun c : str =>
            is_valid_leet_combination c = true /\
            flags c <> (false, false) /\ flags c <> (true, true))
         (written (generate_cartesian_with_rules self digits_range
                     min_length max_length max_results dedupe)).
Proof.
  assert (V : forall c, is_valid_leet_combination c = true ->
              is_valid_leet_combination c = true /\
              flags c <> (false, false) /\ flags c <> (true, true)).
  { intros c H. split; [exact H|]. revert H.
    unfold is_valid_leet_combination, flags.
    destruct (has_leet_substitutions c) as [[[] []] chars]; simpl;
      intros H; split; congruence. }
  split.
  - eapply Forall_impl; [eapply written_inv; left; reflexivity|].
    intros c [H _]. now apply V.
  - eapply Forall_impl; [eapply written_inv; right; reflexivity|].
    intros c [H _]. now apply V.
Qed.

(** C9: the length of every candidate written by either generator is at
    least [min_length] and at most [max_length]. *)
Theorem emitted_candidates_length (self : analyzer) (digits_range : list Z)
    (min_length max_length : Z) (max_results : option Z) (dedupe : bool) :
  Forall (fun c : str => min_length <= Z.of_nat (length c) <= max_length)
         (written (generate_comprehensive_wordlist self digits_range
                     min_length max_length max_results dedupe)) /\
  Forall (fun c : str => min_length <= Z.of_nat (length c) <= max_length)
         (written (generate_cartesian_with_rules self digits_range
                     min_length max_length max_results dedupe)).
Proof.
  split.
  - eapply Forall_impl; [eapply written_inv; left; reflexivity|].
    now intros c [_ H].
  - eapply Forall_impl; [eapply written_inv; right; reflexivity|].
    now intros c [_ H].
Qed.

(** C10: with [dedupe = True] no candidate is written twice in a run of
    either generator. *)
Theorem emitted_candidates_distinct (self : analyzer) (digits_range : list Z)
    (min_length max_length : Z) (max_results : option Z) :
  NoDup (written (generate_comprehensive_wordlist self digits_range
                    min_length max_length max_results true)) /\
  NoDup (written (generate_cartesian_with_rules self digits_range
                    min_length max_length max_results true)).
Proof.
  split.
  - eapply written_inv; [left; reflexivity | reflexivity].
  - eapply written_inv; [right; reflexivity | reflexivity].
Qed.

(** Without deduplication a repeated suffix value is written again. *)
Example duplicates_without_dedupe :
  written (generate_cartesian_with_rules demo [7; 7] 7 9 None false) =
  map lit ["redL!on07"; "redL!on07"; "red[ion07"; "red[ion07"; "r3dLion07"; "r3dLion07";
           "re)Lion07"; "re)Lion07"; "re>Lion07"; "re>Lion07"]%string.
Proof. vm_compute. reflexivity. Qed.

Example with_dedupe :
  written (generate_cartesian_with_rules demo [7; 7] 7 9 None true) =
  map lit ["redL!on07"; "red[ion07"; "r3dLion07"; "re)Lion07"; "re>Lion07"]%string.
Proof. vm_compute. reflexivity. Qed.

(** A run that stops at [max_results]. *)
Example stops_at_max_results :
  generate_comprehensive_wordlist demo [0; 7] 7 15 (Some 3) true =
  {| returned := 3;
     written := map lit ["redL!on00"; "redL!on07"; "red[ion00"]%string |}.
Proof. vm_compute. reflexivity. Qed.

(** A three-digit suffix value that leaves a digit in the word part: the
    symbol-leet candidates are rejected as mixed, the numeric one is kept. *)
Example three_digit_suffix :
  written (generate_cartesian_with_rules demo [100] 7 15 None true) =
  [lit "r3dLion100"].
Proof. vm_compute. reflexivity. Qed.

(** The cases of [test_leet_validation]. *)
Example self_test_suite :
  map (fun p => is_valid_leet_combination (lit p))
      ["w1ldLion42"; "wildL10n42"; "w!ldLion42"; "wildL!on42"; "wild7iger99";
       "br@veEagle23"; "wildLion42"; "gentleTiger99"; "w1ldL!on42";
       "w!ldL10n42"; "w1ld7!ger42"; "w!1dLion42"]%string =
  [true; true; true; true; true; true; false; false; false; false; false; false].
Proof. vm_compute. reflexivity. Qed.

(** * Further properties of the engine *)

(** ** The token splitter: what the fragments are *)

Lemma first_upper_spec (s : str) (j : nat) :
  first_upper s = Some j ->
  existsb Py.is_upper (take j s) = false /\
  exists c r, drop j s = c :: r /\ Py.is_upper c = true.
Proof.
  revert j. induction s as [|x s IH]; intros j; [discriminate|]. simpl.
  destruct (Py.is_upper x) eqn:Hx.
  - intros [= <-]. split; [reflexivity|]. now exists x, s.
  - destruct (first_upper s) as [k|]; [|discriminate]. simpl.
    intros [= <-]. destruct (IH k eq_refl) as (Hk & c & r & Hd & Hc).
    split; [simpl; now rewrite Hx | now exists c, r].
Qed.

(** The upper-case rule cuts just before the first internal upper-case
    letter. *)
Lemma split_camel_spec (body l r : str) :
  split_camel body = [l; r] ->
  body = l ++ r /\ l <> [] /\ has_internal_upper l = false /\
  exists c r', r = c :: r' /\ Py.is_upper c = true.
Proof.
  destruct body as [|x tl]; [discriminate|]. unfold split_camel.
  destruct (first_upper tl) as [j|] eqn:Hj; [|discriminate].
  intros [= <- <-]. apply first_upper_spec in Hj as (Hk & c & r' & Hd & Hc).
  split; [simpl; now rewrite take_drop|]. split; [discriminate|].
  split; [exact Hk | now exists c, r'].
Qed.

Lemma token_split_fragments_aux (password l r : str) :
  token_split password = Some (l, r) ->
  let body := Py.but_last2 password in
  (4 <= length password)%nat /\ l <> [] /\ r <> [] /\
  (body = l ++ r \/ body = l ++ r ++ [newline]) /\
  (has_internal_upper body = true ->
   body = l ++ r /\ has_internal_upper l = false /\
   exists c r', r = c :: r' /\ Py.is_upper c = true) /\
  (has_internal_upper body = false -> body = l ++ r ++ [newline] ->
   forallb Py.is_alpha l = true).
Proof.
  intros H body. unfold token_split in H. fold body in H.
  destruct (length password <? 4)%nat eqn:Hlen; [discriminate|].
  apply Nat.ltb_ge in Hlen. split; [exact Hlen|].
  destruct (split_camel_cases body) as [[Hup E]|[Hup (l' & r' & E & _)]];
    rewrite E in H.
  - destruct (match_boundary body) as [[l1 r1]|] eqn:Hm.
    + injection H as -> ->.
      apply match_boundary_inv in Hm as (Hl & Ha & (c & tl & -> & Hc & Htl) & Hb).
      split; [exact Hl|]. split; [discriminate|]. split; [exact Hb|].
      split; [congruence | now intros _ _].
    + set (mid := Nat.max 2 (length body / 2)) in H.
      assert (Hmid : (2 <= mid)%nat) by (unfold mid; lia).
      destruct (length body <=? mid)%nat eqn:Hle; [discriminate|].
      apply Nat.leb_gt in Hle. injection H as <- <-.
      assert (B : body = take mid body ++ drop mid body)
        by now rewrite take_drop.
      split; [|split; [|split; [now left | split; [congruence|]]]].
      * intros E0. apply (f_equal length) in E0. rewrite length_take in E0.
        cbn [length] in E0. lia.
      * intros E0. apply (f_equal length) in E0. rewrite length_drop in E0.
        cbn [length] in E0. lia.
      * intros _ E0. exfalso. apply (f_equal length) in E0.
        rewrite app_assoc, length_app, <- B in E0. cbn [length] in E0. lia.
  - injection H as -> ->.
    apply split_camel_spec in E as (Hb & Hl & Hn & c & r' & -> & Hc).
    split; [exact Hl|]. split; [discriminate|]. split; [now left|].
    split; [intros _; split; [exact Hb | split; [exact Hn | now exists c, r']]|].
    congruence.
Qed.

(** X1: when the splitter succeeds, the password has at least 4 characters, both
    fragments are non-empty and together they are the body, except that
    the boundary rule drops one newline that ends the body; under the
    upper-case rule the right fragment starts with the first internal
    upper-case letter. *)
Theorem token_split_fragments (password l r : str) :
  token_split password = Some (l, r) ->
  let body := Py.but_last2 password in
  (4 <= length password)%nat /\ l <> [] /\ r <> [] /\
  (body = l ++ r \/ body = l ++ r ++ [newline]) /\
  (has_internal_upper body = true ->
   body = l ++ r /\ has_internal_upper l = false /\
   exists c r', r = c :: r' /\ Py.is_upper c = true) /\
  (has_internal_upper body = false -> body = l ++ r ++ [newline] ->
   forallb Py.is_alpha l = true).
Proof. exact (token_split_fragments_aux password l r). Qed.

Lemma token_split_fragments_witness :
  Py.but_last2 (lit "w1ldLion42") = lit "w1ld" ++ lit "Lion".
Proof.
  destruct (token_split_fragments (lit "w1ldLion42") (lit "w1ld") (lit "Lion"))
    as (_ & _ & _ & _ & H & _); [reflexivity|].
  apply H. reflexivity.
Defined.

(** ** The deleeter: shape of the result *)

Lemma length_replace (a b : ascii) (s : str) : length (Py.replace a b s) = length s.
Proof. apply length_map. Qed.

Lemma reverse_normals_nonempty (k : ascii) (normals : list ascii) :
  (k, normals) ∈ reverse_leet_map -> normals <> [].
Proof.
  intros H. unfold reverse_leet_map in H.
  repeat (apply elem_of_cons in H as [H|H]; [injection H as -> ->; discriminate|]).
  inversion H.
Qed.

(** A round keeps the length of the candidates, and keeps the set
    inhabited when the symbol has a candidate letter. *)
Lemma deleet_round_length (X : gset str) (leet : ascii) (normals : list ascii)
    (n : nat) :
  (forall c, c ∈ X -> length c = n) ->
  forall c, c ∈ deleet_round X (leet, normals) -> length c = n.
Proof.
  intros HX c Hc. unfold deleet_round in Hc.
  apply elem_of_set_bind in Hc as (x & Hx & Hc).
  destruct (Py.contains leet x).
  - apply elem_of_list_to_set, list_elem_of_fmap in Hc as (m & -> & _).
    rewrite length_replace. now apply HX.
  - apply elem_of_singleton in Hc. subst c. now apply HX.
Qed.

Lemma deleet_round_inhabited (X : gset str) (leet : ascii) (normals : list ascii) :
  normals <> [] -> (exists c, c ∈ X) -> exists c, c ∈ deleet_round X (leet, normals).
Proof.
  intros Hn [x Hx]. unfold deleet_round.
  destruct (Py.contains leet x) eqn:E.
  - destruct normals as [|m ms]; [congruence|].
    exists (Py.replace leet m x). apply elem_of_set_bind. exists x.
    split; [exact Hx|]. rewrite E. apply elem_of_list_to_set. left.
  - exists x. apply elem_of_set_bind. exists x. split; [exact Hx|].
    rewrite E. now apply elem_of_singleton.
Qed.

Lemma deleet_rounds_shape (d : list (ascii * list ascii)) (X : gset str) (n : nat) :
  (forall k normals, (k, normals) ∈ d -> normals <> []) ->
  (forall c, c ∈ X -> length c = n) -> (exists c, c ∈ X) ->
  (forall c, c ∈ foldl deleet_round X d -> length c = n) /\
  (exists c, c ∈ foldl deleet_round X d).
Proof.
  revert X. induction d as [|[k normals] d IH]; intros X Hd HX HI; [now split|].
  cbn [foldl]. apply IH.
  - intros k' n' H. apply (Hd k' n'). now right.
  - now apply deleet_round_length.
  - apply deleet_round_inhabited; [|exact HI]. apply (Hd k normals). left.
Qed.

Lemma filter_lower_shape (c : str) :
  forallb Py.is_lower (List.filter Py.is_lower c) = true /\
  (length (List.filter Py.is_lower c) <= length c)%nat.
Proof.
  induction c as [|x c [IH1 IH2]]; [now split|]. simpl.
  destruct (Py.is_lower x) eqn:Hx; simpl; [rewrite Hx, IH1|]; split; auto; lia.
Qed.

Section DeleetShape.

Variable spell : str -> bool.
Variable iter_order : gset str -> list str.
Hypothesis iter_order_perm : forall X : gset str, iter_order X ≡ₚ elements X.

Lemma iter_order_elem (X : gset str) (c : str) : c ∈ iter_order X <-> c ∈ X.
Proof. rewrite iter_order_perm. apply elem_of_elements. Qed.

(** The result is one of the final candidates. *)
Lemma deleet_word_candidate (word : str) :
  deleet_word spell iter_order word ∈
  (set_map (List.filter Py.is_lower)
     (foldl deleet_round {[ Py.lower word ]} reverse_leet_map) : gset str).
Proof.
  unfold deleet_word.
  set (C := foldl deleet_round {[ Py.lower word ]} reverse_leet_map).
  set (C' := (set_map (List.filter Py.is_lower) C : gset str)).
  destruct (deleet_rounds_shape reverse_leet_map {[ Py.lower word ]} (length word))
    as [_ [c Hc]].
  - exact reverse_normals_nonempty.
  - intros c Hc. apply elem_of_singleton in Hc. subst c. apply length_lower.
  - exists (Py.lower word). now apply elem_of_singleton.
  - fold C in Hc.
    assert (Hne : exists y, y ∈ iter_order C').
    { exists (List.filter Py.is_lower c). apply iter_order_elem.
      apply elem_of_map. exists c. split; [reflexivity | exact Hc]. }
    assert (F : match iter_order C' with c0 :: _ => c0 | [] => word end ∈ C').
    { destruct (iter_order C') as [|c0 l] eqn:E.
      - destruct Hne as [y Hy]. inversion Hy.
      - apply iter_order_elem. rewrite E. left. }
    destruct (existsb _ _); [|exact F].
    destruct (List.filter spell (iter_order C')) as [|c0 l] eqn:E; [exact F|].
    apply iter_order_elem. apply list_elem_of_In.
    assert (I : In c0 (List.filter spell (iter_order C'))) by (rewrite E; now left).
    now apply filter_In in I as [I _].
Qed.

Lemma deleet_word_shape_aux (word : str) :
  forallb Py.is_lower (deleet_word spell iter_order word) = true /\
  (length (deleet_word spell iter_order word) <= length word)%nat /\
  Py.lower (deleet_word spell iter_order word) = deleet_word spell iter_order word.
Proof.
  pose proof (deleet_word_candidate word) as H.
  apply elem_of_map in H as (c & -> & Hc).
  destruct (deleet_rounds_shape reverse_leet_map {[ Py.lower word ]} (length word))
    as [HL _].
  - exact reverse_normals_nonempty.
  - intros x Hx. apply elem_of_singleton in Hx. subst x. apply length_lower.
  - exists (Py.lower word). now apply elem_of_singleton.
  - destruct (filter_lower_shape c) as [F1 F2]. rewrite <- (HL c Hc).
    split; [exact F1|]. split; [exact F2|]. now apply lower_fixed.
Qed.

(** X2: whatever the dictionary and the iteration order, the deleeted word
    consists of lower-case letters only and is no longer than the
    fragment. *)
Theorem deleet_word_shape (word : str) :
  forallb Py.is_lower (deleet_word spell iter_order word) = true /\
  (length (deleet_word spell iter_order word) <= length word)%nat /\
  Py.lower (deleet_word spell iter_order word) = deleet_word spell iter_order word.
Proof. exact (deleet_word_shape_aux word). Qed.

End DeleetShape.

Lemma deleet_word_shape_witness :
  forallb Py.is_lower (deleet_word any_word elements (lit "W!l)")) = true.
Proof.
  apply (deleet_word_shape any_word elements).
  intros X. reflexivity.
Defined.

(** ** The deleeter without the ambiguous symbol *)

Lemma contains_replace (k a b : ascii) (s : str) :
  k <> b -> Py.contains k s = false -> Py.contains k (Py.replace a b s) = false.
Proof.
  intros Hk. unfold Py.contains, Py.replace.
  induction s as [|x s IH]; [reflexivity|]. simpl.
  intros H. apply orb_false_iff in H as [Hx Hs]. rewrite (IH Hs), orb_false_r.
  destruct (Ascii.eqb x a); [|exact Hx]. now apply Ascii.eqb_neq.
Qed.

Lemma replace_absent (a b : ascii) (s : str) :
  Py.contains a s = false -> Py.replace a b s = s.
Proof.
  unfold Py.contains, Py.replace.
  induction s as [|x s IH]; [reflexivity|]. simpl.
  intros H. apply orb_false_iff in H as [Hx Hs]. rewrite (IH Hs).
  rewrite Ascii.eqb_sym, Hx. reflexivity.
Qed.

(** A round for a symbol with one candidate letter replaces it. *)
Lemma deleet_round_single (c : str) (leet n : ascii) :
  deleet_round {[ c ]} (leet, [n]) = {[ Py.replace leet n c ]}.
Proof.
  unfold deleet_round. rewrite set_bind_singleton_L.
  destruct (Py.contains leet c) eqn:E.
  - simpl. apply union_empty_r_L.
  - now rewrite replace_absent.
Qed.

Lemma contains_lower (k : ascii) (s : str) :
  Py.is_alpha k = false -> Py.contains k (Py.lower s) = Py.contains k s.
Proof.
  intros Hk. unfold Py.contains, Py.lower.
  induction s as [|x s IH]; [reflexivity|]. simpl. rewrite IH. f_equal.
  assert (G : forall a b, implb (negb (Py.is_alpha a))
                (Bool.eqb (Ascii.eqb a (Py.lower_c b)) (Ascii.eqb a b)) = true).
  { intros a b.
    assert (G0 : forall a0, forallb (fun b0 =>
               implb (negb (Py.is_alpha a0))
                 (Bool.eqb (Ascii.eqb a0 (Py.lower_c b0)) (Ascii.eqb a0 b0)))
               all_ascii = true) by (intros a0; by_enumeration a0).
    specialize (G0 a). rewrite forallb_forall in G0. apply G0, all_ascii_complete. }
  specialize (G k x). rewrite Hk in G. simpl in G. now apply Bool.eqb_prop.
Qed.

Section DeleetUnambiguous.

Variable spell : str -> bool.
Variable iter_order : gset str -> list str.
Hypothesis iter_order_perm : forall X : gset str, iter_order X ≡ₚ elements X.

(** X3: on a fragment without the ambiguous symbol [<] the deleeter does not
    consult the dictionary: it lower-cases, replaces every symbol by its
    only candidate letter and drops what is not a lower-case letter. *)
Theorem deleet_word_unambiguous (word : str) :
  Py.contains "<" word = false ->
  deleet_word spell iter_order word =
  List.filter Py.is_lower (map unleet (Py.lower word)).
Proof.
  intros Hlt. unfold deleet_word.
  assert (E : existsb (fun item : ascii * list ascii => Py.contains (fst item) word)
                (List.filter (fun item : ascii * list ascii =>
                                (1 <? length (snd item))%nat) reverse_leet_map)
              = false).
  { cbn. now rewrite Hlt. }
  rewrite E. clear E.
  assert (L : Py.contains "<" (Py.lower word) = false)
    by now rewrite contains_lower.
  unfold reverse_leet_map. cbn [foldl].
  rewrite !deleet_round_single.
  rewrite deleet_round_absent.
  2:{ repeat (apply contains_replace; [discriminate|]). exact L. }
  rewrite !deleet_round_single.
  rewrite set_map_singleton_L, (iter_order_singleton iter_order iter_order_perm).
  f_equal. unfold Py.replace. rewrite !map_map.
  apply map_ext. intros c.
  apply Ascii.eqb_eq. by_enumeration c.
Qed.

End DeleetUnambiguous.

Lemma deleet_word_unambiguous_witness :
  deleet_word any_word elements (lit "W!l)") =
  List.filter Py.is_lower (map unleet (Py.lower (lit "W!l)"))).
Proof.
  apply (deleet_word_unambiguous any_word elements).
  - intros X. reflexivity.
  - reflexivity.
Defined.

(** ** The analysis record *)

Lemma length_but_last2 (s : str) : length (Py.but_last2 s) = (length s - 2)%nat.
Proof. unfold Py.but_last2. rewrite length_take. lia. Qed.

Lemma length_last2 (s : str) : (2 <= length s)%nat -> length (Py.last2 s) = 2%nat.
Proof. intros H. unfold Py.last2. rewrite length_drop. lia. Qed.

Lemma but_last2_last2 (s : str) : Py.but_last2 s ++ Py.last2 s = s.
Proof. apply take_drop. Qed.

(** The splitter looks at the length of the password and at its body
    only. *)
Lemma token_split_suffix (body s1 s2 : str) :
  length s1 = 2%nat -> length s2 = 2%nat ->
  token_split (body ++ s1) = token_split (body ++ s2).
Proof.
  intros H1 H2.
  destruct s1 as [|a1 [|b1 [|]]]; try discriminate.
  destruct s2 as [|a2 [|b2 [|]]]; try discriminate.
  unfold token_split. rewrite !but_last2_app, !length_app. reflexivity.
Qed.

Section Record_.

Variable spell : str -> bool.
Variable iter_order : gset str -> list str.

Abbreviation aps := (analyze_password_structure spell iter_order).

(** X4: two passwords with the same body parse alike and give the same adjective
    and noun; the two last characters decide the [digits] field only,
    which is empty or the suffix and, for an ASCII suffix, the suffix
    exactly when both of its characters are among 0..9. *)
Theorem suffix_only_decides_digits (body s1 s2 : str) :
  length s1 = 2%nat -> length s2 = 2%nat ->
  match aps (body ++ s1), aps (body ++ s2) with
  | Some a1, Some a2 =>
      adjective a1 = adjective a2 /\ noun a1 = noun a2 /\
      (digits a1 = [] \/ digits a1 = s1) /\
      (digits a2 = [] \/ digits a2 = s2) /\
      (forallb Py.is_ascii s1 = true ->
       digits a1 = (if Py.isdigit s1 then s1 else [])) /\
      (forallb Py.is_ascii s2 = true ->
       digits a2 = (if Py.isdigit s2 then s2 else []))
  | None, None => True
  | _, _ => False
  end.
Proof.
  intros H1 H2. unfold analyze_password_structure.
  rewrite (token_split_suffix body s1 s2 H1 H2).
  destruct (token_split (body ++ s2)) as [[l r]|]; [|exact I].
  destruct (_ || _); [exact I|]. simpl.
  destruct s1 as [|a1 [|b1 [|]]]; try discriminate.
  destruct s2 as [|a2 [|b2 [|]]]; try discriminate.
  rewrite !last2_app.
  repeat split; try (intros _; reflexivity).
  - destruct (Py.isdigit [a1; b1]); [now right | now left].
  - destruct (Py.isdigit [a2; b2]); [now right | now left].
Qed.

Hypothesis iter_order_perm : forall X : gset str, iter_order X ≡ₚ elements X.

Lemma analysis_record_shape_aux (password : str) (a : analysis) :
  aps password = Some a ->
  plain_word (adjective a) /\ plain_word (noun a) /\
  original a = password /\
  digits a = (if Py.isdigit (Py.last2 password) then Py.last2 password else []) /\
  (digits a = [] \/ (length (digits a) = 2%nat /\ forallb Py.is_digit (digits a) = true)) /\
  clean_form a = adjective a ++ Py.capitalize (noun a) ++ digits a /\
  (length (adjective a) + length (noun a) <= length password - 2)%nat.
Proof.
  unfold analyze_password_structure.
  destruct (token_split password) as [[l r]|] eqn:Hs; [|discriminate].
  destruct (_ || _) eqn:Hlen; [discriminate|]. intros [= <-]. simpl.
  apply orb_false_iff in Hlen as [Hl Hr]. apply Nat.ltb_ge in Hl, Hr.
  destruct (deleet_word_shape_aux spell iter_order iter_order_perm l) as (L1 & L2 & L3).
  destruct (deleet_word_shape_aux spell iter_order iter_order_perm r) as (R1 & R2 & R3).
  rewrite L3, R3 in *.
  apply token_split_fragments_aux in Hs as (H4 & _ & _ & Hb & _).
  split; [now split|]. split; [now split|]. split; [reflexivity|].
  split; [reflexivity|]. split; [|split; [reflexivity|]].
  - destruct (Py.isdigit (Py.last2 password)) eqn:Hd; [right | now left].
    split; [apply length_last2; lia|].
    unfold Py.isdigit in Hd. now apply andb_true_iff in Hd as [_ Hd].
  - assert (length l + length r <= length (Py.but_last2 password))%nat.
    { destruct Hb as [-> | ->]; rewrite !length_app; simpl; lia. }
    rewrite length_but_last2 in *. lia.
Qed.

(** X5: in a record returned by [analyze_password_structure] the adjective and
    the noun are plain words (lower-case letters, at least two), [digits]
    is empty or the two last characters of the password, [clean_form] is
    adjective + capitalised noun + digits, and the two words are no
    longer than the body; when the two last characters are ASCII,
    [digits] is empty or made of two characters among 0..9. *)
Theorem analysis_record_shape (password : str) (a : analysis) :
  aps password = Some a ->
  plain_word (adjective a) /\ plain_word (noun a) /\
  original a = password /\
  (digits a = [] \/ digits a = Py.last2 password) /\
  (forallb Py.is_ascii (Py.last2 password) = true ->
   digits a = (if Py.isdigit (Py.last2 password) then Py.last2 password else []) /\
   (digits a = [] \/
    (length (digits a) = 2%nat /\ forallb Py.is_digit (digits a) = true))) /\
  clean_form a = adjective a ++ Py.capitalize (noun a) ++ digits a /\
  (length (adjective a) + length (noun a) <= length password - 2)%nat.
Proof.
  intros Ha.
  destruct (analysis_record_shape_aux password a Ha)
    as (H1 & H2 & H3 & H4 & H5 & H6 & H7).
  repeat split; try assumption; try apply H1; try apply H2.
  rewrite H4. destruct (Py.isdigit (Py.last2 password)); [now right | now left].
Qed.

End Record_.

Lemma suffix_only_decides_digits_witness :
  match analyze_password_structure any_word elements (lit "wildLion" ++ lit "42"),
        analyze_password_structure any_word elements (lit "wildLion" ++ lit "4x") with
  | Some a1, Some a2 =>
      adjective a1 = adjective a2 /\ noun a1 = noun a2 /\
      (digits a1 = [] \/ digits a1 = lit "42") /\
      (digits a2 = [] \/ digits a2 = lit "4x") /\
      (forallb Py.is_ascii (lit "42") = true ->
       digits a1 = (if Py.isdigit (lit "42") then lit "42" else [])) /\
      (forallb Py.is_ascii (lit "4x") = true ->
       digits a2 = (if Py.isdigit (lit "4x") then lit "4x" else []))
  | None, None => True
  | _, _ => False
  end.
Proof.
  apply (suffix_only_decides_digits any_word elements (lit "wildLion")
           (lit "42") (lit "4x")); reflexivity.
Defined.

Lemma analysis_record_shape_witness :
  plain_word (lit "brave") /\ plain_word (lit "eagle").
Proof.
  destruct (analysis_record_shape any_word elements (fun X => reflexivity _)
              (lit "br@veEagle4x")
              {| adjective := lit "brave"; noun := lit "eagle"; digits := [];
                 original := lit "br@veEagle4x"; clean_form := lit "braveEagle" |})
    as (H1 & H2 & _).
  - vm_compute. reflexivity.
  - split; [exact H1 | exact H2].
Defined.

(** ** The canonical form *)

Lemma upper_lower_c c : Py.upper_c (Py.lower_c c) = Py.upper_c c.
Proof. apply Ascii.eqb_eq. by_enumeration c. Qed.

Lemma capitalize_lower (w : str) : Py.capitalize (Py.lower w) = Py.capitalize w.
Proof.
  destruct w as [|c w]; [reflexivity|]. simpl.
  now rewrite upper_lower_c, lower_idem.
Qed.

Lemma length_capitalize (w : str) : length (Py.capitalize w) = length w.
Proof. destruct w; [reflexivity|]. simpl. now rewrite length_lower. Qed.

Section Canonical.

Variable spell : str -> bool.
Variable iter_order : gset str -> list str.
Hypothesis iter_order_perm : forall X : gset str, iter_order X ≡ₚ elements X.

Abbreviation aps := (analyze_password_structure spell iter_order).

(** A plain adjective, a capitalised noun and any two characters. *)
Lemma analyze_plain (adj nn suffix : str) :
  forallb Py.is_lower adj = true -> forallb Py.is_alpha nn = true ->
  (2 <= length adj)%nat -> (2 <= length nn)%nat -> length suffix = 2%nat ->
  aps (adj ++ Py.capitalize nn ++ suffix) =
  Some {| adjective := adj;
          noun := Py.lower nn;
          digits := if Py.isdigit suffix then suffix else [];
          original := adj ++ Py.capitalize nn ++ suffix;
          clean_form := adj ++ Py.capitalize nn
                        ++ (if Py.isdigit suffix then suffix else []) |}.
Proof.
  intros Hadj Hnn Hla Hln Hs. unfold analyze_password_structure.
  assert (T : token_split (adj ++ Py.capitalize nn ++ suffix) =
              Some (adj, Py.capitalize nn)).
  { rewrite app_assoc.
    rewrite (token_split_suffix _ suffix (lit "42") Hs eq_refl), <- app_assoc.
    apply token_split_camel; auto; try lia; intros ->; simpl in *; lia. }
  rewrite T.
  rewrite !(deleet_word_alpha spell iter_order iter_order_perm).
  2: now apply capitalize_alpha.
  2: now apply lower_all_alpha.
  rewrite !lower_idem, lower_capitalize, (lower_fixed adj Hadj), length_lower.
  assert (E1 : (length adj <? 2)%nat = false) by now apply Nat.ltb_ge.
  assert (E2 : (length nn <? 2)%nat = false) by now apply Nat.ltb_ge.
  rewrite E1, E2. cbn [orb].
  destruct suffix as [|x [|y [|]]]; try discriminate.
  rewrite app_assoc, last2_app, <- app_assoc, capitalize_lower. reflexivity.
Qed.

(** X6: when the suffix of a password is numeric, analysing the canonical form
    of its record gives the same adjective, noun, digits and canonical
    form again. *)
Theorem canonical_form_fixed (password : str) (a : analysis) :
  aps password = Some a -> digits a <> [] ->
  aps (clean_form a) =
  Some {| adjective := adjective a; noun := noun a; digits := digits a;
          original := clean_form a; clean_form := clean_form a |}.
Proof.
  intros Ha Hd.
  destruct (analysis_record_shape_aux spell iter_order iter_order_perm password a Ha)
    as ([A1 A2] & [N1 N2] & _ & _ & [D|[D1 D2]] & C & _); [contradiction|].
  assert (Dd : Py.isdigit (digits a) = true).
  { unfold Py.isdigit. rewrite D1, D2. reflexivity. }
  rewrite C.
  rewrite (analyze_plain (adjective a) (noun a) (digits a)); auto.
  - rewrite Dd, (lower_fixed (noun a) N1). reflexivity.
  - now apply lower_all_alpha.
Qed.

End Canonical.

Lemma canonical_form_fixed_witness :
  analyze_password_structure any_word elements (lit "wildLion42") =
  Some {| adjective := lit "wild"; noun := lit "lion"; digits := lit "42";
          original := lit "wildLion42"; clean_form := lit "wildLion42" |}.
Proof.
  apply (canonical_form_fixed any_word elements (fun X => reflexivity _)
           (lit "w!ldL!on42")
           {| adjective := lit "wild"; noun := lit "lion"; digits := lit "42";
              original := lit "w!ldL!on42"; clean_form := lit "wildLion42" |}).
  - vm_compute. reflexivity.
  - discriminate.
Defined.

(** A canonical form without digits is cut two letters short when it is
    analysed again. *)
Example canonical_form_without_digits :
  (clean_form <$> analyze_password_structure any_word elements (lit "br@veEagle4x"))
    = Some (lit "braveEagle") /\
  (noun <$> analyze_password_structure any_word elements (lit "braveEagle"))
    = Some (lit "eag").
Proof. vm_compute. split; reflexivity. Qed.

(** ** The batch *)

Section Batch.

Variable spell : str -> bool.
Variable iter_order : gset str -> list str.

Abbreviation step := (corpus_step spell iter_order).
Abbreviation records := (parsed spell iter_order).

Lemma corpus_loop_exact (passwords : list str) (self : analyzer) (n : Z)
    (fp : list str) :
  fst (foldl step (self, n, fp) passwords) =
  ({| adjectives := list_to_set (adjective <$> records passwords) ∪ adjectives self;
      nouns := list_to_set (noun <$> records passwords) ∪ nouns self;
      password_patterns := password_patterns self ++ records passwords |},
   n + Z.of_nat (length (records passwords))).
Proof.
  revert self n fp. induction passwords as [|p ps IH]; intros self n fp.
  - simpl. rewrite !union_empty_l_L, app_nil_r, Z.add_0_r. now destruct self.
  - cbn [foldl]. unfold parsed. cbn [omap list_omap].
    destruct (analyze_password_structure spell iter_order p) as [a|] eqn:Hp.
    + rewrite (corpus_step_success _ _ _ _ _ _ a Hp), IH. cbn -[Z.of_nat].
      f_equal; [f_equal|].
      * unfold parsed. apply set_eq. intros x.
        rewrite ?list_to_set_cons, !elem_of_union. tauto.
      * unfold parsed. apply set_eq. intros x.
        rewrite ?list_to_set_cons, !elem_of_union. tauto.
      * now rewrite <- app_assoc.
      * unfold parsed. lia.
    + rewrite (corpus_step_failure _ _ _ _ _ _ Hp). apply IH.
Qed.

Lemma length_records (passwords : list str) :
  length (records passwords) =
  length (List.filter (parses spell iter_order) passwords).
Proof.
  induction passwords as [|p ps IH]; [reflexivity|].
  unfold parsed, parses in *. cbn [omap list_omap List.filter].
  destruct (analyze_password_structure spell iter_order p); simpl; now rewrite IH.
Qed.

Lemma filter_partition_length {A : Type} (f : A -> bool) (l : list A) :
  (length (List.filter f l) + length (List.filter (fun x => negb (f x)) l)
   = length l)%nat.
Proof.
  induction l as [|x l IH]; [reflexivity|]. simpl.
  destruct (f x); simpl; lia.
Qed.

Lemma analyze_corpus_exact_aux (self : analyzer) (passwords : list str)
    (append_mode : bool) :
  let before := if append_mode then self
                else {| adjectives := ∅; nouns := ∅; password_patterns := [] |} in
  let after := fst (analyze_corpus spell iter_order self passwords append_mode) in
  let report := snd (analyze_corpus spell iter_order self passwords append_mode) in
  adjectives after =
    list_to_set (adjective <$> records passwords) ∪ adjectives before /\
  nouns after = list_to_set (noun <$> records passwords) ∪ nouns before /\
  password_patterns after = password_patterns before ++ records passwords /\
  successful report = Z.of_nat (length (records passwords)) /\
  successful report + failed report = Z.of_nat (length passwords) /\
  new_adjectives report =
    Z.of_nat (size (adjectives after)) - Z.of_nat (size (adjectives before)) /\
  new_nouns report =
    Z.of_nat (size (nouns after)) - Z.of_nat (size (nouns before)) /\
  0 <= new_adjectives report /\ 0 <= new_nouns report.
Proof.
  intros before after report. subst after report. unfold analyze_corpus.
  fold before.
  pose proof (corpus_loop_exact passwords before 0 []) as E.
  pose proof (corpus_loop_filter spell iter_order passwords before 0 []) as F.
  destruct (foldl step (before, 0, []) passwords) as [[s1 n1] f1].
  simpl in E. injection E as -> ->. apply (f_equal snd) in F. simpl in F.
  subst f1. cbn -[Z.of_nat size].
  repeat split; try reflexivity.
  - rewrite length_records.
    pose proof (filter_partition_length (parses spell iter_order) passwords). lia.
  - assert (size (adjectives before) <=
            size (list_to_set (adjective <$> records passwords) ∪ adjectives before))%nat
      by apply subseteq_size, union_subseteq_r.
    lia.
  - assert (size (nouns before) <=
            size (list_to_set (noun <$> records passwords) ∪ nouns before))%nat
      by apply subseteq_size, union_subseteq_r.
    lia.
Qed.

(** X7: [analyze_corpus] adds to the vocabulary exactly the adjectives and the
    nouns of the records of the passwords that parse, appends those
    records to the log in order, reports successes plus failures equal to
    the size of the batch, and its counts of new words are the growth of
    the two sets, never negative. *)
Theorem analyze_corpus_exact (self : analyzer) (passwords : list str)
    (append_mode : bool) :
  let before := if append_mode then self
                else {| adjectives := ∅; nouns := ∅; password_patterns := [] |} in
  let after := fst (analyze_corpus spell iter_order self passwords append_mode) in
  let report := snd (analyze_corpus spell iter_order self passwords append_mode) in
  adjectives after =
    list_to_set (adjective <$> records passwords) ∪ adjectives before /\
  nouns after = list_to_set (noun <$> records passwords) ∪ nouns before /\
  password_patterns after = password_patterns before ++ records passwords /\
  successful report = Z.of_nat (length (records passwords)) /\
  successful report + failed report = Z.of_nat (length passwords) /\
  new_adjectives report =
    Z.of_nat (size (adjectives after)) - Z.of_nat (size (adjectives before)) /\
  new_nouns report =
    Z.of_nat (size (nouns after)) - Z.of_nat (size (nouns before)) /\
  0 <= new_adjectives report /\ 0 <= new_nouns report.
Proof. exact (analyze_corpus_exact_aux self passwords append_mode). Qed.

(** X8: analysing a batch a second time in append mode leaves the vocabulary as
    it is and reports no new word; only the log grows again. *)
Theorem analyze_corpus_twice (self : analyzer) (passwords : list str) :
  let once := fst (analyze_corpus spell iter_order self passwords true) in
  let twice := analyze_corpus spell iter_order once passwords true in
  adjectives (fst twice) = adjectives once /\
  nouns (fst twice) = nouns once /\
  new_adjectives (snd twice) = 0 /\ new_nouns (snd twice) = 0 /\
  password_patterns (fst twice) = password_patterns once ++ records passwords.
Proof.
  intros once twice.
  destruct (analyze_corpus_exact_aux self passwords true) as (A1 & N1 & _).
  destruct (analyze_corpus_exact_aux once passwords true)
    as (A2 & N2 & P2 & _ & _ & NA & NN & _).
  fold once in A1, N1. fold twice in A2, N2, P2, NA, NN. cbn [adjectives nouns] in *.
  assert (EA : adjectives (fst twice) = adjectives once).
  { rewrite A2, A1. apply set_eq. intros x. rewrite !elem_of_union. tauto. }
  assert (EN : nouns (fst twice) = nouns once).
  { rewrite N2, N1. apply set_eq. intros x. rewrite !elem_of_union. tauto. }
  split; [exact EA|]. split; [exact EN|].
  rewrite NA, NN, EA, EN. repeat split; try lia. exact P2.
Qed.

Hypothesis iter_order_perm : forall X : gset str, iter_order X ≡ₚ elements X.

Lemma records_plain (passwords : list str) (a : analysis) :
  a ∈ records passwords -> plain_word (adjective a) /\ plain_word (noun a).
Proof.
  unfold parsed. intros H. apply list_elem_of_omap in H as (p & _ & Hp).
  destruct (analysis_record_shape_aux spell iter_order iter_order_perm p a Hp)
    as (H1 & H2 & _).
  now split.
Qed.

Lemma vocabulary_plain_aux (self : analyzer) (passwords : list str)
    (append_mode : bool) :
  (append_mode = true ->
   (forall w, w ∈ adjectives self -> plain_word w) /\
   (forall w, w ∈ nouns self -> plain_word w)) ->
  let after := fst (analyze_corpus spell iter_order self passwords append_mode) in
  (forall w, w ∈ adjectives after -> plain_word w) /\
  (forall w, w ∈ nouns after -> plain_word w).
Proof.
  intros Hself after.
  destruct (analyze_corpus_exact_aux self passwords append_mode) as (A & N & _).
  fold after in A, N. rewrite A, N.
  assert (B : (forall w, w ∈ adjectives (if append_mode then self
                 else {| adjectives := ∅; nouns := ∅; password_patterns := [] |}) ->
                 plain_word w) /\
              (forall w, w ∈ nouns (if append_mode then self
                 else {| adjectives := ∅; nouns := ∅; password_patterns := [] |}) ->
                 plain_word w)).
  { destruct append_mode; [now apply Hself|].
    split; intros w Hw; simpl in Hw; now apply not_elem_of_empty in Hw. }
  destruct B as [BA BN].
  split; intros w Hw; apply elem_of_union in Hw as [Hw|Hw]; auto.
  - apply elem_of_list_to_set, list_elem_of_fmap in Hw as (a & -> & Ha).
    now apply records_plain in Ha.
  - apply elem_of_list_to_set, list_elem_of_fmap in Hw as (a & -> & Ha).
    now apply records_plain in Ha.
Qed.

(** X9: if the vocabulary held plain words before (or the batch is analysed
    without append mode), it holds plain words after. *)
Theorem vocabulary_plain (self : analyzer) (passwords : list str)
    (append_mode : bool) :
  (append_mode = true ->
   (forall w, w ∈ adjectives self -> plain_word w) /\
   (forall w, w ∈ nouns self -> plain_word w)) ->
  let after := fst (analyze_corpus spell iter_order self passwords append_mode) in
  (forall w, w ∈ adjectives after -> plain_word w) /\
  (forall w, w ∈ nouns after -> plain_word w).
Proof. exact (vocabulary_plain_aux self passwords append_mode). Qed.

End Batch.

Lemma vocabulary_plain_witness :
  (forall w, w ∈ adjectives (fst (analyze_corpus any_word elements demo
                                    [lit "br@veEagle23"] true)) -> plain_word w) /\
  (forall w, w ∈ nouns (fst (analyze_corpus any_word elements demo
                               [lit "br@veEagle23"] true)) -> plain_word w).
Proof.
  apply (vocabulary_plain any_word elements (fun X => reflexivity _) demo
           [lit "br@veEagle23"] true).
  intros _. split; intros w Hw; unfold demo in Hw; cbn [adjectives nouns] in Hw;
    apply elem_of_list_to_set in Hw;
    repeat (apply elem_of_cons in Hw as [->|Hw]; [split; [reflexivity | simpl; lia]|]);
    inversion Hw.
Defined.

(** ** The classifier, character by character *)

Lemma numeric_leet_chars_digits (c : ascii) :
  c ∈ numeric_leet_chars <-> Py.is_digit c = true.
Proof.
  assert (G : forall x, Bool.eqb (bool_decide (x ∈ numeric_leet_chars))
                                 (Py.is_digit x) = true)
    by (intros x; by_enumeration x).
  specialize (G c). apply Bool.eqb_prop in G. rewrite <- G.
  symmetry. apply bool_decide_eq_true.
Qed.

Lemma symbol_leet_chars_symbols (c : ascii) :
  c ∈ symbol_leet_chars <-> is_symbol c = true.
Proof.
  assert (G : forall x, Bool.eqb (bool_decide (x ∈ symbol_leet_chars))
                                 (is_symbol x) = true)
    by (intros x; by_enumeration x).
  specialize (G c). apply Bool.eqb_prop in G. rewrite <- G.
  symmetry. apply bool_decide_eq_true.
Qed.

Lemma digit_not_alpha (c : ascii) : Py.is_digit c = true -> Py.is_alpha c = false.
Proof.
  intros H.
  assert (G : forall x, implb (Py.is_digit x) (negb (Py.is_alpha x)) = true)
    by (intros x; by_enumeration x).
  specialize (G c). rewrite H in G. now apply negb_true_iff.
Qed.

Lemma symbol_not_alpha (c : ascii) : is_symbol c = true -> Py.is_alpha c = false.
Proof.
  intros H.
  assert (G : forall x, implb (is_symbol x) (negb (Py.is_alpha x)) = true)
    by (intros x; by_enumeration x).
  specialize (G c). rewrite H in G. now apply negb_true_iff.
Qed.

Lemma size_pos_iff (X : gset ascii) : (0 <? size X)%nat = true <-> exists c, c ∈ X.
Proof.
  rewrite Nat.ltb_lt. split.
  - apply size_pos_elem_of.
  - intros [c Hc]. destruct (size X) eqn:E; [|lia].
    apply size_empty_iff in E. rewrite E in Hc. now apply not_elem_of_empty in Hc.
Qed.

Lemma non_alpha_elem (w : str) (c : ascii) :
  c ∈ (list_to_set (List.filter (fun c => negb (Py.is_alpha c)) w) : gset ascii) <->
  In c w /\ Py.is_alpha c = false.
Proof.
  rewrite elem_of_list_to_set, list_elem_of_In, filter_In, negb_true_iff.
  reflexivity.
Qed.

Lemma existsb_iff (p : ascii -> bool) (w : str) :
  existsb p w = true <-> exists c, In c w /\ p c = true.
Proof. apply existsb_exists. Qed.

Lemma classifier_exact_aux (text : str) :
  has_leet_substitutions text = classify (strip_suffix text).
Proof.
  unfold has_leet_substitutions, classify.
  set (w := strip_suffix text).
  set (S := (list_to_set (List.filter (fun c => negb (Py.is_alpha c)) w) : gset ascii)).
  apply (f_equal2 pair); [apply (f_equal2 pair) | reflexivity].
  - apply eq_true_iff_eq. rewrite size_pos_iff, existsb_iff.
    split.
    + intros [c Hc]. exists c.
      assert (Hc' : c ∈ S /\ Py.is_digit c = true).
      { destruct (decide (_ = ∅)).
        - apply elem_of_intersection in Hc as [H1 H2].
          split; [exact H1 | now apply numeric_leet_chars_digits].
        - apply elem_of_union in Hc as [Hc|Hc].
          + apply elem_of_intersection in Hc as [H1 H2].
            split; [exact H1 | now apply numeric_leet_chars_digits].
          + apply elem_of_filter in Hc as [[H1 _] H2].
            split; [exact H2 | now apply Is_true_true]. }
      destruct Hc' as [H1 H2]. apply non_alpha_elem in H1 as [H1 _]. now split.
    + intros (c & H1 & H2). exists c.
      assert (Hc : c ∈ S ∩ numeric_leet_chars).
      { apply elem_of_intersection. split.
        - apply non_alpha_elem. split; [exact H1 | now apply digit_not_alpha].
        - now apply numeric_leet_chars_digits. }
      destruct (decide (_ = ∅)); [exact Hc|]. apply elem_of_union. now left.
  - apply eq_true_iff_eq. rewrite size_pos_iff, existsb_iff.
    split.
    + intros [c Hc]. exists c. apply elem_of_intersection in Hc as [H1 H2].
      apply non_alpha_elem in H1 as [H1 _].
      split; [exact H1 | now apply symbol_leet_chars_symbols].
    + intros (c & H1 & H2). exists c. apply elem_of_intersection. split.
      * apply non_alpha_elem. split; [exact H1 | now apply symbol_not_alpha].
      * now apply symbol_leet_chars_symbols.
Qed.

(** X10: on an ASCII text [has_leet_substitutions] reports numeric leet iff the
    word part holds one of 0..9, symbol leet iff it holds one of the eleven
    symbol substitutes, and returns the set of the non-alphabetic
    characters of the word part; other non-alphabetic characters count
    for neither flag. *)
Theorem classifier_exact (text : str) :
  forallb Py.is_ascii text = true ->
  has_leet_substitutions text = classify (strip_suffix text).
Proof. intros _. exact (classifier_exact_aux text). Qed.

Lemma classifier_exact_witness :
  has_leet_substitutions (lit "w_ld>Lion42") = classify (lit "w_ld>Lion").
Proof. apply (classifier_exact (lit "w_ld>Lion42")). reflexivity. Defined.

(** ** Two-digit suffixes *)

Lemma fmt02d_two_digits (n : Z) :
  0 <= n <= 99 ->
  exists d1 d2, Py.fmt02d n = [d1; d2] /\
                Py.is_digit d1 = true /\ Py.is_digit d2 = true.
Proof.
  intros Hn.
  assert (G : forallb (fun k => match Py.fmt02d (Z.of_nat k) with
                                | [d1; d2] => Py.is_digit d1 && Py.is_digit d2
                                | _ => false
                                end) (seq 0 100) = true)
    by (vm_compute; reflexivity).
  rewrite forallb_forall in G. specialize (G (Z.to_nat n)).
  rewrite Z2Nat.id in G by lia.
  assert (I : In (Z.to_nat n) (seq 0 100)) by (apply in_seq; lia).
  specialize (G I).
  destruct (Py.fmt02d n) as [|d1 [|d2 [|]]]; try discriminate.
  apply andb_true_iff in G as [G1 G2]. now exists d1, d2.
Qed.

Lemma strip_suffix_digits (w : str) (d1 d2 : ascii) :
  Py.is_digit d1 = true -> Py.is_digit d2 = true ->
  strip_suffix (w ++ [d1; d2]) = w.
Proof.
  intros H1 H2. unfold strip_suffix.
  rewrite rev_app_distr. simpl. rewrite H1, H2. simpl. apply rev_involutive.
Qed.

Lemma classifier_ignores_suffix_aux (core : str) (n : Z) :
  0 <= n <= 99 ->
  has_leet_substitutions (core ++ Py.fmt02d n) = classify core /\
  is_valid_leet_combination (core ++ Py.fmt02d n) =
    xorb (existsb Py.is_digit core) (existsb is_symbol core).
Proof.
  intros Hn. destruct (fmt02d_two_digits n Hn) as (d1 & d2 & -> & H1 & H2).
  assert (E : has_leet_substitutions (core ++ [d1; d2]) = classify core)
    by now rewrite classifier_exact_aux, strip_suffix_digits.
  split; [exact E|]. unfold is_valid_leet_combination. rewrite E.
  unfold classify. now destruct (existsb Py.is_digit core), (existsb is_symbol core).
Qed.

(** X11: for an ASCII core and a suffix value between 0 and 99 the
    classification of a candidate is that of its core: its validity does
    not depend on the suffix. *)
Theorem classifier_ignores_suffix (core : str) (n : Z) :
  forallb Py.is_ascii core = true ->
  0 <= n <= 99 ->
  has_leet_substitutions (core ++ Py.fmt02d n) = classify core /\
  is_valid_leet_combination (core ++ Py.fmt02d n) =
    xorb (existsb Py.is_digit core) (existsb is_symbol core).
Proof. intros _. exact (classifier_ignores_suffix_aux core n). Qed.

Lemma classifier_ignores_suffix_witness :
  has_leet_substitutions (lit "w1ldLion" ++ Py.fmt02d 7) = classify (lit "w1ldLion").
Proof.
  apply (classifier_ignores_suffix (lit "w1ldLion") 7); [reflexivity | lia].
Defined.

(** ** The variants of a word, exactly *)

Lemma add_each_mono {A : Type} (f : A -> str) (l : list A) (acc : gset str) (v : str) :
  v ∈ acc -> v ∈ foldl (fun (vs : gset str) (a : A) => {[ f a ]} ∪ vs) acc l.
Proof.
  revert acc. induction l as [|a l IH]; intros acc H; [exact H|].
  simpl. apply IH. apply elem_of_union. now right.
Qed.

Lemma add_each_added {A : Type} (f : A -> str) (l : list A) (acc : gset str) (a : A) :
  a ∈ l -> f a ∈ foldl (fun (vs : gset str) (a : A) => {[ f a ]} ∪ vs) acc l.
Proof.
  revert acc. induction l as [|b l IH]; intros acc H; [inversion H|].
  simpl. apply elem_of_cons in H as [->|H].
  - apply add_each_mono. apply elem_of_union. left. now apply elem_of_singleton.
  - now apply IH.
Qed.

Lemma maps_forward_elim (c s : ascii) :
  maps_forward c s = true ->
  exists o, dict_get leetspeak_map c = Some o /\ s ∈ as_list o.
Proof.
  unfold maps_forward. destruct (dict_get leetspeak_map c) as [o|]; [|discriminate].
  intros H. exists o. split; [reflexivity|].
  apply existsb_exists in H as (x & Hx & E). apply Ascii.eqb_eq in E. subst x.
  now apply list_elem_of_In.
Qed.

Lemma leet_at_mono (wl : str) (acc : gset str) (ic : nat * ascii) (v : str) :
  v ∈ acc -> v ∈ leet_at wl acc ic.
Proof.
  destruct ic as [i c]. unfold leet_at.
  destruct (dict_get leetspeak_map c); [|auto].
  apply add_each_mono.
Qed.

Lemma leet_fold_mono (wl : str) (l : list (nat * ascii)) (acc : gset str) (v : str) :
  v ∈ acc -> v ∈ foldl (leet_at wl) acc l.
Proof.
  revert acc. induction l as [|ic l IH]; intros acc H; [exact H|].
  cbn [foldl]. now apply IH, leet_at_mono.
Qed.

Lemma leet_fold_added (wl : str) (l : list (nat * ascii)) (acc : gset str)
    (i : nat) (c s : ascii) :
  (i, c) ∈ l -> maps_forward c s = true ->
  cap_first (<[ i := s ]> wl) ∈ foldl (leet_at wl) acc l.
Proof.
  intros Hl Hs. revert acc. induction l as [|ic l IH]; intros acc; [inversion Hl|].
  cbn [foldl]. apply elem_of_cons in Hl as [<-|Hl]; [|now apply IH].
  apply leet_fold_mono. unfold leet_at.
  apply maps_forward_elim in Hs as (o & -> & Hs).
  now apply (add_each_added (fun s => cap_first (<[ i := s ]> wl))).
Qed.

Lemma zip_seq_member (l : str) (k i : nat) (c : ascii) :
  l !! i = Some c -> ((k + i)%nat, c) ∈ zip (seq k (length l)) l.
Proof.
  revert k i. induction l as [|x l IH]; intros k i H; [discriminate|].
  destruct i as [|i]; simpl in *.
  - injection H as ->. rewrite Nat.add_0_r. left.
  - right. replace (k + S i)%nat with (S k + i)%nat by lia. now apply IH.
Qed.

Lemma merge_sort_total : Total Py.le.
Proof.
  intros a. induction a as [|x a IH]; intros b.
  - left. exact I.
  - destruct b as [|y b]; [right; exact I|].
    unfold Py.le. simpl.
    destruct (Py.code x <? Py.code y)%N eqn:E1; [left; exact I|].
    destruct (Py.code y <? Py.code x)%N eqn:E2; [right; exact I|].
    apply IH.
Qed.

(** X12: the variants of a non-empty ASCII word are exactly the word with its
    first letter upper-cased and, for every position of the lower-cased
    word and every substitute of the letter there, the word with that one
    replacement; the list is sorted and has no duplicates. *)
Theorem leet_variants_exact (word : str) :
  word <> [] -> forallb Py.is_ascii word = true ->
  (forall v : str,
      v ∈ apply_leet_transformations word <->
      v = cap_first word \/
      exists i c s, Py.lower word !! i = Some c /\ maps_forward c s = true /\
                    v = cap_first (<[ i := s ]> (Py.lower word))) /\
  NoDup (apply_leet_transformations word) /\
  Sorted Py.le (apply_leet_transformations word).
Proof.
  intros Hw _. split; [|split].
  - intros v. split; [apply apply_leet_transformations_elem|].
    destruct word as [|a w]; [congruence|].
    unfold apply_leet_transformations. rewrite sorted_set_elem.
    intros [->|(i & c & s & Hi & Hs & ->)].
    + apply leet_fold_mono. now apply elem_of_singleton.
    + apply (leet_fold_added _ _ _ i c s); [|exact Hs].
      apply (zip_seq_member _ 0). exact Hi.
  - destruct word as [|a w]; [congruence|].
    unfold apply_leet_transformations, Py.sorted_set, Py.sorted.
    rewrite merge_sort_Permutation. apply NoDup_elements.
  - destruct word as [|a w]; [congruence|].
    unfold apply_leet_transformations, Py.sorted_set, Py.sorted.
    apply Sorted_merge_sort. exact merge_sort_total.
Qed.

Lemma leet_variants_exact_witness :
  lit "L!on" ∈ apply_leet_transformations (lit "lion").
Proof.
  apply (proj1 (leet_variants_exact (lit "lion") ltac:(discriminate)
                  ltac:(reflexivity))).
  right. exists 1%nat, "i"%char, "!"%char. repeat split.
Defined.

(** ** Word variations *)

Lemma strip_suffix_00 (w : str) : strip_suffix (w ++ lit "00") = w.
Proof. apply strip_suffix_digits; reflexivity. Qed.

Lemma categorize_spec (word : str) (is_adjective : bool) (vs : variations)
    (variant : str) :
  let x := if is_adjective then Py.lower variant else variant in
  base (categorize word is_adjective vs variant) = base vs /\
  ((numeric_leet (categorize word is_adjective vs variant) = numeric_leet vs ++ [x] /\
    symbol_leet (categorize word is_adjective vs variant) = symbol_leet vs /\
    variant <> word /\
    existsb Py.is_digit x = true /\ existsb is_symbol x = false) \/
   (numeric_leet (categorize word is_adjective vs variant) = numeric_leet vs /\
    symbol_leet (categorize word is_adjective vs variant) = symbol_leet vs ++ [x] /\
    variant <> word /\
    existsb Py.is_digit x = false /\ existsb is_symbol x = true) \/
   (categorize word is_adjective vs variant = vs /\
    (variant = word \/
     existsb Py.is_digit x = existsb is_symbol x))).
Proof.
  intros x. unfold categorize. fold x.
  destruct (decide (variant = word)) as [E|E].
  - split; [reflexivity|]. right. right. split; [reflexivity | now left].
  - rewrite classifier_exact_aux, strip_suffix_00. unfold classify.
    destruct (existsb Py.is_digit x), (existsb is_symbol x); simpl;
      (split; [reflexivity|]); auto 10.
Qed.

Lemma word_variations_classified_aux (word : str) (is_adjective : bool) :
  let vs := get_word_variations word is_adjective in
  let norm (u : str) := if is_adjective then Py.lower u else u in
  base vs = [if is_adjective then Py.lower word else Py.capitalize word] /\
  (forall x, x ∈ numeric_leet vs <->
             exists u, u ∈ apply_leet_transformations word /\ u <> word /\
                       x = norm u /\
                       existsb Py.is_digit x = true /\ existsb is_symbol x = false) /\
  (forall x, x ∈ symbol_leet vs <->
             exists u, u ∈ apply_leet_transformations word /\ u <> word /\
                       x = norm u /\
                       existsb Py.is_digit x = false /\ existsb is_symbol x = true).
Proof.
  intros vs norm. subst vs. unfold get_word_variations.
  set (v0 := {| base := [if is_adjective then Py.lower word else Py.capitalize word];
                numeric_leet := []; symbol_leet := [] |}).
  assert (G : forall l vs,
    let r := foldl (categorize word is_adjective) vs l in
    base r = base vs /\
    (forall x, x ∈ numeric_leet r <->
       x ∈ numeric_leet vs \/
       exists u, u ∈ l /\ u <> word /\ x = norm u /\
                 existsb Py.is_digit x = true /\ existsb is_symbol x = false) /\
    (forall x, x ∈ symbol_leet r <->
       x ∈ symbol_leet vs \/
       exists u, u ∈ l /\ u <> word /\ x = norm u /\
                 existsb Py.is_digit x = false /\ existsb is_symbol x = true)).
  { induction l as [|u l IH]; intros vs r.
    - subst r. simpl. split; [reflexivity|].
      split; intros x; (split; [now left|]);
        (intros [H|(u & H & _)]; [exact H | inversion H]).
    - subst r. cbn [foldl].
      destruct (IH (categorize word is_adjective vs u)) as (B & N & S).
      destruct (categorize_spec word is_adjective vs u) as (B' & C).
      fold (norm u) in C.
      split; [now rewrite B|]. split; intros x.
      + rewrite N. destruct C as [(C1 & C2 & C3 & C4 & C5)|[(C1 & C2 & C3 & C4 & C5)|(C1 & C3)]].
        * rewrite C1, elem_of_app, list_elem_of_singleton. split.
          -- intros [[H| ->]|(u' & H & R)]; [now left | | ].
             ++ right. exists u. split; [left|]. auto.
             ++ right. exists u'. split; [now right | exact R].
          -- intros [H|(u' & H & R)]; [now left; left|].
             apply elem_of_cons in H as [->|H].
             ++ left. right. now destruct R as (_ & -> & _).
             ++ right. now exists u'.
        * rewrite C1. split.
          -- intros [H|(u' & H & R)]; [now left|].
             right. exists u'. split; [now right | exact R].
          -- intros [H|(u' & H & R)]; [now left|].
             apply elem_of_cons in H as [->|H].
             ++ destruct R as (_ & -> & R1 & _). congruence.
             ++ right. now exists u'.
        * rewrite C1. split.
          -- intros [H|(u' & H & R)]; [now left|].
             right. exists u'. split; [now right | exact R].
          -- intros [H|(u' & H & R)]; [now left|].
             apply elem_of_cons in H as [->|H].
             ++ destruct R as (R0 & -> & R1 & R2). destruct C3 as [C3|C3]; congruence.
             ++ right. now exists u'.
      + rewrite S. destruct C as [(C1 & C2 & C3 & C4 & C5)|[(C1 & C2 & C3 & C4 & C5)|(C1 & C3)]].
        * rewrite C2. split.
          -- intros [H|(u' & H & R)]; [now left|].
             right. exists u'. split; [now right | exact R].
          -- intros [H|(u' & H & R)]; [now left|].
             apply elem_of_cons in H as [->|H].
             ++ destruct R as (_ & -> & R1 & _). congruence.
             ++ right. now exists u'.
        * rewrite C2, elem_of_app, list_elem_of_singleton. split.
          -- intros [[H| ->]|(u' & H & R)]; [now left | | ].
             ++ right. exists u. split; [left|]. auto.
             ++ right. exists u'. split; [now right | exact R].
          -- intros [H|(u' & H & R)]; [now left; left|].
             apply elem_of_cons in H as [->|H].
             ++ left. right. now destruct R as (_ & -> & _).
             ++ right. now exists u'.
        * rewrite C1. split.
          -- intros [H|(u' & H & R)]; [now left|].
             right. exists u'. split; [now right | exact R].
          -- intros [H|(u' & H & R)]; [now left|].
             apply elem_of_cons in H as [->|H].
             ++ destruct R as (R0 & -> & R1 & R2). destruct C3 as [C3|C3]; congruence.
             ++ right. now exists u'. }
  destruct (G (apply_leet_transformations word) v0) as (B & N & S).
  split; [exact B|]. split; intros x.
  - rewrite N. split; [|now right]. intros [H|H]; [inversion H | exact H].
  - rewrite S. split; [|now right]. intros [H|H]; [inversion H | exact H].
Qed.

(** X13: for an ASCII word [get_word_variations] keeps the base form alone in
    ['base'], and puts a variant under ['numeric_leet'] iff it holds one of
    0..9 and no symbol, under ['symbol_leet'] iff it holds a symbol and
    none of 0..9; adjectives are lower-cased first, and a variant equal to
    the word is skipped. *)
Theorem word_variations_classified (word : str) (is_adjective : bool) :
  forallb Py.is_ascii word = true ->
  let vs := get_word_variations word is_adjective in
  let norm (u : str) := if is_adjective then Py.lower u else u in
  base vs = [if is_adjective then Py.lower word else Py.capitalize word] /\
  (forall x, x ∈ numeric_leet vs <->
             exists u, u ∈ apply_leet_transformations word /\ u <> word /\
                       x = norm u /\
                       existsb Py.is_digit x = true /\ existsb is_symbol x = false) /\
  (forall x, x ∈ symbol_leet vs <->
             exists u, u ∈ apply_leet_transformations word /\ u <> word /\
                       x = norm u /\
                       existsb Py.is_digit x = false /\ existsb is_symbol x = true).
Proof. intros _. exact (word_variations_classified_aux word is_adjective). Qed.

Lemma word_variations_classified_witness :
  base (get_word_variations (lit "lion") false) = [lit "Lion"] /\
  lit "L!on" ∈ symbol_leet (get_word_variations (lit "lion") false).
Proof.
  destruct (word_variations_classified (lit "lion") false) as (B & _ & S).
  - reflexivity.
  - split; [exact B|]. apply S. exists (lit "L!on").
    split; [|repeat split; discriminate].
    apply list_elem_of_In. vm_compute. tauto.
Defined.

(** ** The generators as one loop over the enumeration *)

Lemma for_each_ext {A S R : Type} (xs : list A) (b1 b2 : A -> S -> ctl S R) (s : S) :
  (forall x s', x ∈ xs -> b1 x s' = b2 x s') ->
  for_each xs b1 s = for_each xs b2 s.
Proof.
  revert s. induction xs as [|x xs IH]; intros s H; [reflexivity|]. simpl.
  rewrite (H x s) by left.
  destruct (b2 x s); [|reflexivity]. apply IH. intros y s' Hy. apply H. now right.
Qed.

Lemma for_each_app {A S R : Type} (xs ys : list A) (body : A -> S -> ctl S R) (s : S) :
  for_each (xs ++ ys) body s =
  match for_each xs body s with
  | Next s' => for_each ys body s'
  | Return r => Return r
  end.
Proof.
  revert s. induction xs as [|x xs IH]; intros s; [reflexivity|]. simpl.
  destruct (body x s); [apply IH | reflexivity].
Qed.

Lemma for_each_flat_map {A B S R : Type} (g : A -> list B) (xs : list A)
    (body : B -> S -> ctl S R) (s : S) :
  for_each (flat_map g xs) body s = for_each xs (fun x => for_each (g x) body) s.
Proof.
  revert s. induction xs as [|x xs IH]; intros s; [reflexivity|]. simpl.
  rewrite for_each_app. destruct (for_each (g x) body s); [apply IH | reflexivity].
Qed.

Lemma for_each_map {A B S R : Type} (f : A -> B) (xs : list A)
    (body : B -> S -> ctl S R) (s : S) :
  for_each (map f xs) body s = for_each xs (fun x => body (f x)) s.
Proof.
  revert s. induction xs as [|x xs IH]; intros s; [reflexivity|]. simpl.
  destruct (body (f x) s); [apply IH | reflexivity].
Qed.

Lemma variations_map_lookup (words : list str) (is_adjective : bool) (w : str) :
  w ∈ words ->
  variations_map words is_adjective !! w = Some (get_word_variations w is_adjective).
Proof.
  unfold variations_map.
  assert (G : forall (m : gmap str variations),
             (w ∈ words \/ m !! w = Some (get_word_variations w is_adjective)) ->
             foldl (fun (m : gmap str variations) (x : str) =>
                      <[ x := get_word_variations x is_adjective ]> m) m words !! w
             = Some (get_word_variations w is_adjective)).
  { induction words as [|x words IH]; intros m [H|H]; simpl.
    - inversion H.
    - exact H.
    - apply IH. apply elem_of_cons in H as [->|H]; [right | now left].
      apply lookup_insert_eq.
    - apply IH. right. destruct (decide (x = w)) as [->|Hne].
      + apply lookup_insert_eq.
      + now rewrite lookup_insert_ne.
  }
  intros H. apply G. now left.
Qed.

Section Flat.

Variable self : analyzer.
Variable digits_range : list Z.
Variables min_length max_length : Z.
Variable max_results : option Z.
Variable dedupe : bool.

Abbreviation step := (emit min_length max_length max_results dedupe).

Lemma cartesian_body_emit (core : str) (n : Z) (st : gen_state) :
  cartesian_body min_length max_length max_results dedupe core n st =
  step (core ++ Py.fmt02d n) st.
Proof. reflexivity. Qed.

Lemma comprehensive_body_emit (core : str) (n : Z) (st : gen_state) :
  comprehensive_body min_length max_length max_results dedupe core n st =
  step (core ++ Py.fmt02d n) st.
Proof.
  unfold comprehensive_body, emit. now rewrite orb_comm.
Qed.

Lemma pairs_loop (xs ys : list str) (label : string) (st : gen_state) :
  for_each (pairs xs ys label)
    (fun pair =>
       let '(adj_var, noun_var, combo_type) := pair in
       let core := adj_var ++ noun_var in
       for_each digits_range
         (cartesian_body min_length max_length max_results dedupe core)) st =
  for_each xs (fun a => for_each ys (fun b =>
    for_each digits_range (fun n => step ((a ++ b) ++ Py.fmt02d n)))) st.
Proof.
  unfold pairs. rewrite for_each_flat_map. apply for_each_ext.
  intros a s _. now rewrite for_each_map.
Qed.

Lemma variant_pairs_loop (adj noun : str)
    (body : str -> str -> gen_state -> ctl gen_state gen_state) (st : gen_state) :
  for_each (variant_pairs adj noun) (fun ab => body (fst ab) (snd ab)) st =
  for_each valid_combinations (fun types =>
    let '(adj_type, noun_type) := types in
    for_each (vget (get_word_variations adj true) adj_type) (fun a =>
      for_each (vget (get_word_variations noun false) noun_type) (fun b =>
        body a b))) st.
Proof.
  unfold variant_pairs. rewrite for_each_flat_map. apply for_each_ext.
  intros [t1 t2] s _. rewrite for_each_flat_map. apply for_each_ext.
  intros a s' _. now rewrite for_each_map.
Qed.

Lemma enumeration_loop (st : gen_state) :
  for_each (enumeration self digits_range) step st =
  for_each (Py.sorted_set (adjectives self)) (fun adj =>
    for_each (Py.sorted_set (nouns self)) (fun noun =>
      for_each (variant_pairs adj noun) (fun ab =>
        for_each digits_range (fun n =>
          step ((fst ab ++ snd ab) ++ Py.fmt02d n))))) st.
Proof.
  unfold enumeration. rewrite for_each_flat_map. apply for_each_ext.
  intros adj s _. rewrite for_each_flat_map. apply for_each_ext.
  intros noun s' _. rewrite for_each_flat_map. apply for_each_ext.
  intros ab s'' _. now rewrite for_each_map.
Qed.

Lemma generate_cartesian_flat :
  generate_cartesian_with_rules self digits_range min_length max_length
    max_results dedupe =
  if bool_decide (adjectives self = ∅) || bool_decide (nouns self = ∅)
  then {| returned := 0; written := [] |}
  else finish (for_each (enumeration self digits_range) step st0).
Proof.
  unfold generate_cartesian_with_rules.
  destruct (_ || _); [reflexivity|]. f_equal.
  rewrite enumeration_loop. apply for_each_ext. intros adj s _.
  apply for_each_ext. intros noun s' _.
  rewrite (variant_pairs_loop adj noun
             (fun a b => for_each digits_range
                           (fun n => step ((a ++ b) ++ Py.fmt02d n)))).
  set (av := get_word_variations adj true).
  set (nv := get_word_variations noun false).
  set (labelled := [ (Base, NumericLeet, "base+numeric"%string);
                     (Base, SymbolLeet, "base+symbol"%string);
                     (NumericLeet, Base, "numeric+base"%string);
                     (SymbolLeet, Base, "symbol+base"%string) ]).
  replace (pairs (base av) (numeric_leet nv) "base+numeric"
           ++ pairs (base av) (symbol_leet nv) "base+symbol"
           ++ pairs (numeric_leet av) (base nv) "numeric+base"
           ++ pairs (symbol_leet av) (base nv) "symbol+base")
    with (flat_map (fun t : vkey * vkey * string =>
                      pairs (vget av (fst (fst t))) (vget nv (snd (fst t))) (snd t))
                   labelled)
    by (simpl; now rewrite app_nil_r).
  change valid_combinations with (map (fun t : vkey * vkey * string => fst t) labelled).
  rewrite for_each_flat_map, for_each_map. apply for_each_ext.
  intros [[t1 t2] label] s1 _. cbn [fst snd]. now rewrite pairs_loop.
Qed.

Lemma generate_comprehensive_flat :
  generate_comprehensive_wordlist self digits_range min_length max_length
    max_results dedupe =
  if bool_decide (adjectives self = ∅) || bool_decide (nouns self = ∅)
  then {| returned := 0; written := [] |}
  else finish (for_each (enumeration self digits_range) step st0).
Proof.
  unfold generate_comprehensive_wordlist.
  destruct (_ || _); [reflexivity|]. f_equal.
  rewrite enumeration_loop. apply for_each_ext. intros adj s Hadj.
  rewrite (variations_map_lookup _ true adj Hadj). cbn [default from_option].
  apply for_each_ext. intros noun s' Hnoun.
  rewrite (variations_map_lookup _ false noun Hnoun). cbn [default from_option].
  rewrite (variant_pairs_loop adj noun
             (fun a b => for_each digits_range
                           (fun n => step ((a ++ b) ++ Py.fmt02d n)))).
  apply for_each_ext. intros [t1 t2] s1 _.
  apply for_each_ext. intros a s2 _.
  apply for_each_ext. intros b s3 _.
  apply for_each_ext. intros n s4 _.
  apply comprehensive_body_emit.
Qed.

End Flat.

Lemma generators_agree_aux (self : analyzer) (digits_range : list Z)
    (min_length max_length : Z) (max_results : option Z) (dedupe : bool) :
  generate_comprehensive_wordlist self digits_range min_length max_length
    max_results dedupe =
  generate_cartesian_with_rules self digits_range min_length max_length
    max_results dedupe.
Proof. now rewrite generate_comprehensive_flat, generate_cartesian_flat. Qed.

(** X14: called with the same arguments, [generate_comprehensive_wordlist] and
    [generate_cartesian_with_rules] return the same value and write the
    same lines; only their default [max_length] differs. *)
Theorem generators_agree (self : analyzer) (digits_range : list Z)
    (min_length max_length : Z) (max_results : option Z) (dedupe : bool) :
  generate_comprehensive_wordlist self digits_range min_length max_length
    max_results dedupe =
  generate_cartesian_with_rules self digits_range min_length max_length
    max_results dedupe.
Proof.
  exact (generators_agree_aux self digits_range min_length max_length
           max_results dedupe).
Qed.

(** ** What a run writes *)

(** [process_candidate] either writes the candidate, counts it and records
    it in [seen], or leaves the three unchanged. *)
Lemma process_candidate_cases (c : str) (st : gen_state) (dedupe : bool) :
  let st' := process_candidate c st dedupe in
  (is_valid_leet_combination c = true /\
   (dedupe = false \/ c ∉ seen st) /\
   out_f st' = out_f st ++ [c] /\
   total_written st' = total_written st + 1 /\
   seen st' = {[ c ]} ∪ seen st) \/
  ((is_valid_leet_combination c = false \/ (dedupe = true /\ c ∈ seen st)) /\
   out_f st' = out_f st /\
   total_written st' = total_written st /\
   seen st' = seen st).
Proof.
  unfold process_candidate.
  destruct (is_valid_leet_combination c) eqn:Hv; simpl.
  - destruct dedupe; simpl.
    + destruct (bool_decide (c ∈ seen st)) eqn:Hs.
      * apply bool_decide_eq_true in Hs. right. auto.
      * apply bool_decide_eq_false in Hs. left. auto.
    + left. auto.
  - right. auto.
Qed.

Lemma st0_counted : counted st0.
Proof.
  split; [reflexivity|]. intros c. simpl. split; intros H.
  - now apply not_elem_of_empty in H.
  - inversion H.
Qed.

Lemma process_candidate_counted (c : str) (st : gen_state) (dedupe : bool) :
  counted st -> counted (process_candidate c st dedupe).
Proof.
  intros [H1 H2].
  destruct (process_candidate_cases c st dedupe)
    as [(_ & _ & O & T & S)|(_ & O & T & S)]; split.
  - rewrite T, O, H1, length_app. simpl. lia.
  - intros x. rewrite S, O, elem_of_union, elem_of_singleton, elem_of_app,
      list_elem_of_singleton, H2. tauto.
  - now rewrite T, O.
  - intros x. now rewrite S, O.
Qed.

Lemma emit_counted (min_length max_length : Z) (max_results : option Z)
    (dedupe : bool) (c : str) (st : gen_state) :
  counted st -> holds counted (emit min_length max_length max_results dedupe c st).
Proof.
  intros H. unfold emit. destruct (_ || _); [exact H|].
  pose proof (process_candidate_counted c st dedupe H).
  now destruct (reached _ _).
Qed.

Lemma sorted_set_empty : Py.sorted_set ∅ = [].
Proof. unfold Py.sorted_set. now rewrite elements_empty. Qed.

Lemma flat_map_nil {A B : Type} (xs : list A) :
  flat_map (fun _ : A => @nil B) xs = [].
Proof. induction xs; [reflexivity | exact IHxs]. Qed.

(** Without vocabulary there is nothing to enumerate. *)
Lemma enumeration_empty (self : analyzer) (digits_range : list Z) :
  adjectives self = ∅ \/ nouns self = ∅ -> enumeration self digits_range = [].
Proof.
  unfold enumeration. intros [-> | ->]; rewrite sorted_set_empty; [reflexivity|].
  simpl. apply flat_map_nil.
Qed.

(** Both generators are the loop over the enumeration, empty vocabulary
    included. *)
Lemma generate_as_loop (self : analyzer) (digits_range : list Z)
    (min_length max_length : Z) (max_results : option Z) (dedupe : bool) :
  generate_cartesian_with_rules self digits_range min_length max_length
    max_results dedupe =
  finish (for_each (enumeration self digits_range)
            (emit min_length max_length max_results dedupe) st0).
Proof.
  rewrite generate_cartesian_flat.
  destruct (bool_decide (adjectives self = ∅)) eqn:E1; simpl.
  - apply bool_decide_eq_true in E1. now rewrite enumeration_empty by now left.
  - destruct (bool_decide (nouns self = ∅)) eqn:E2; [|reflexivity].
    apply bool_decide_eq_true in E2. now rewrite enumeration_empty by now right.
Qed.

Lemma returned_counts_written_aux (self : analyzer) (digits_range : list Z)
    (min_length max_length : Z) (max_results : option Z) (dedupe : bool) :
  let r := generate_cartesian_with_rules self digits_range min_length max_length
             max_results dedupe in
  let r' := generate_comprehensive_wordlist self digits_range min_length
              max_length max_results dedupe in
  returned r = Z.of_nat (length (written r)) /\
  returned r' = Z.of_nat (length (written r')).
Proof.
  intros r r'. subst r r'. rewrite generators_agree_aux, generate_as_loop.
  assert (H : holds counted
                (for_each (enumeration self digits_range)
                   (emit min_length max_length max_results dedupe) st0)).
  { apply for_each_holds; [|exact st0_counted].
    intros c s Hs. now apply emit_counted. }
  destruct (for_each _ _ _) as [s|s]; destruct H as [H _]; now split.
Qed.

(** X15: the value returned by either generator is the number of lines it
    wrote. *)
Theorem returned_counts_written (self : analyzer) (digits_range : list Z)
    (min_length max_length : Z) (max_results : option Z) (dedupe : bool) :
  let r := generate_cartesian_with_rules self digits_range min_length max_length
             max_results dedupe in
  let r' := generate_comprehensive_wordlist self digits_range min_length
              max_length max_results dedupe in
  returned r = Z.of_nat (length (written r)) /\
  returned r' = Z.of_nat (length (written r')).
Proof.
  exact (returned_counts_written_aux self digits_range min_length max_length
           max_results dedupe).
Qed.

(** ** Runs without a cap *)

Section NoCap.

Variables min_length max_length : Z.
Variable dedupe : bool.

Abbreviation ok := (accepted min_length max_length).

Lemma emit_no_cap (max_results : option Z) (c : str) (st : gen_state) :
  max_results = None \/ max_results = Some 0 ->
  emit min_length max_length max_results dedupe c st =
  Next (if (Z.of_nat (length c) <? min_length) || (max_length <? Z.of_nat (length c))
        then st else process_candidate c st dedupe).
Proof.
  intros [-> | ->]; unfold emit, reached; now destruct (_ || _).
Qed.

Lemma length_test (c : str) :
  (Z.of_nat (length c) <? min_length) || (max_length <? Z.of_nat (length c)) =
  negb ((min_length <=? Z.of_nat (length c)) && (Z.of_nat (length c) <=? max_length)).
Proof.
  rewrite negb_andb, <- !Z.ltb_antisym. reflexivity.
Qed.

(** Without a cap the loop runs to its end; it writes the accepted
    candidates that are new. *)
Lemma loop_no_cap (max_results : option Z) (cands : list str) (st : gen_state) :
  max_results = None \/ max_results = Some 0 ->
  counted st ->
  exists st',
    for_each cands (emit min_length max_length max_results dedupe) st = Next st' /\
    counted st' /\
    (exists more, out_f st' = out_f st ++ more) /\
    (forall c, c ∈ out_f st' <-> c ∈ out_f st \/ (c ∈ cands /\ ok c = true)) /\
    (dedupe = false -> out_f st' = out_f st ++ List.filter ok cands).
Proof.
  intros Hcap. revert st. induction cands as [|c cands IH]; intros st Hst.
  - exists st. split; [reflexivity|]. split; [exact Hst|].
    split; [exists []; now rewrite app_nil_r|]. split.
    + intros x. split; [now left|]. intros [H|[H _]]; [exact H | inversion H].
    + intros _. simpl. now rewrite app_nil_r.
  - cbn [for_each]. rewrite (emit_no_cap max_results c st Hcap).
    set (st1 := if _ || _ then st else process_candidate c st dedupe).
    assert (H1 : counted st1).
    { subst st1. destruct (_ || _); [exact Hst | now apply process_candidate_counted]. }
    assert (O : (ok c = true /\ (dedupe = false \/ c ∉ out_f st) /\
                 out_f st1 = out_f st ++ [c]) \/
                ((ok c = false \/ (dedupe = true /\ c ∈ out_f st)) /\
                 out_f st1 = out_f st)).
    { subst st1. unfold accepted. rewrite length_test.
      destruct ((min_length <=? Z.of_nat (length c))
                && (Z.of_nat (length c) <=? max_length)); cbn [negb andb].
      - destruct (process_candidate_cases c st dedupe)
          as [(V & D & O & _)|(V & O & _)].
        + left. split; [exact V|]. split; [|exact O].
          destruct D as [D|D]; [now left | right]. now rewrite <- (proj2 Hst c).
        + right. split; [|exact O].
          destruct V as [V|[D V]]; [now left | right].
          split; [exact D | now apply (proj2 Hst c)].
      - right. split; [now left | reflexivity]. }
    destruct (IH st1 H1) as (st' & E & C' & [more M] & I & F).
    exists st'. split; [exact E|]. split; [exact C'|].
    destruct O as [(A & D & O)|(A & O)]; rewrite O in *.
    + split; [exists (c :: more); now rewrite M, <- app_assoc|]. split.
      * intros x. rewrite I, elem_of_app, list_elem_of_singleton, elem_of_cons.
        split.
        -- intros [[H| ->]|[H K]]; auto.
        -- intros [H|[[->|H] K]]; auto.
      * intros D'. rewrite (F D'), <- app_assoc. cbn [List.filter]. now rewrite A.
    + split; [now exists more|]. split.
      * intros x. rewrite I, elem_of_cons. split.
        -- intros [H|[H K]]; auto.
        -- intros [H|[[->|H] K]]; auto.
           destruct A as [A|[_ A]]; [congruence | now left].
      * intros D'. rewrite (F D'). cbn [List.filter].
        destruct A as [A|[A _]]; [now rewrite A | congruence].
Qed.

(** X16: without a cap ([max_results] is [None] or 0) a candidate is written iff
    it is enumerated, passes the length test and is valid; without
    deduplication the output is the enumeration filtered, in order. *)
Theorem uncapped_run_exact (self : analyzer) (digits_range : list Z)
    (max_results : option Z) :
  max_results = None \/ max_results = Some 0 ->
  let r := generate_cartesian_with_rules self digits_range min_length max_length
             max_results dedupe in
  (forall c, c ∈ written r <->
             c ∈ enumeration self digits_range /\ ok c = true) /\
  (dedupe = false ->
   written r = List.filter ok (enumeration self digits_range)).
Proof.
  intros Hcap r. subst r. rewrite generate_as_loop.
  destruct (loop_no_cap max_results (enumeration self digits_range) st0 Hcap
              st0_counted) as (st' & -> & _ & _ & I & F).
  simpl. split.
  - intros c. rewrite I. simpl. split; [|now right].
    intros [H|H]; [inversion H | exact H].
  - intros D. now rewrite (F D).
Qed.

End NoCap.

Lemma uncapped_run_exact_witness :
  written (generate_cartesian_with_rules demo [7; 7] 7 9 None false) =
  List.filter (accepted 7 9) (enumeration demo [7; 7]).
Proof.
  apply (uncapped_run_exact 7 9 false demo [7; 7] None).
  - now left.
  - reflexivity.
Defined.

(** ** Runs with a cap *)

Section Cap.

Variables min_length max_length : Z.
Variable dedupe : bool.
Variable m : Z.
Hypothesis m_pos : 0 < m.

Lemma emit_unfold (max_results : option Z) (c : str) (st : gen_state) :
  emit min_length max_length max_results dedupe c st =
  if (Z.of_nat (length c) <? min_length) || (max_length <? Z.of_nat (length c))
  then Next st
  else if reached max_results (process_candidate c st dedupe)
       then Return (process_candidate c st dedupe)
       else Next (process_candidate c st dedupe).
Proof. reflexivity. Qed.

Lemma loop_cap (cands : list str) (st : gen_state) :
  counted st -> total_written st < m ->
  let capped := for_each cands (emit min_length max_length (Some m) dedupe) st in
  let free := for_each cands (emit min_length max_length None dedupe) st in
  written (finish capped) = take (Z.to_nat m) (written (finish free)) /\
  (forall s, capped = Next s -> total_written s < m) /\
  (forall s, capped = Return s -> total_written s = m).
Proof.
  revert st. induction cands as [|c cands IH]; intros st Hst Hm capped free.
  - subst capped free. simpl. split; [|split].
    + rewrite take_ge; [reflexivity|]. destruct Hst as [H _]. lia.
    + now intros s [= <-].
    + discriminate.
  - subst capped free. cbn [for_each].
    rewrite (emit_no_cap min_length max_length dedupe None c st) by now left.
    rewrite emit_unfold.
    destruct (_ || _) eqn:L.
    + apply IH; assumption.
    + cbv beta iota.
      pose proof (process_candidate_counted c st dedupe Hst) as H1.
      set (st1 := process_candidate c st dedupe) in *.
      assert (T : total_written st <= total_written st1 <= total_written st + 1).
      { subst st1. destruct (process_candidate_cases c st dedupe)
          as [(_ & _ & _ & T & _)|(_ & _ & T & _)]; lia. }
      unfold reached.
      destruct (m =? 0) eqn:E0; [apply Z.eqb_eq in E0; lia|]. cbn [negb andb].
      destruct (m <=? total_written st1) eqn:E.
      * apply Z.leb_le in E. split; [|split].
        -- destruct (loop_no_cap min_length max_length dedupe None cands st1)
             as (st' & -> & _ & [more M] & _); [now left | exact H1|].
           simpl. rewrite M. destruct H1 as [H1 _].
           rewrite take_app_le by lia. rewrite take_ge; [reflexivity | lia].
        -- discriminate.
        -- intros s [= <-]. lia.
      * apply Z.leb_gt in E. apply IH; assumption.
Qed.

(** X17: a positive [max_results] only truncates: the capped run writes the first
    [max_results] lines of the run without cap and returns the smaller of
    the cap and the number of lines of that run. *)
Theorem cap_truncates (self : analyzer) (digits_range : list Z) :
  let capped := generate_cartesian_with_rules self digits_range min_length
                  max_length (Some m) dedupe in
  let free := generate_cartesian_with_rules self digits_range min_length
                max_length None dedupe in
  written capped = take (Z.to_nat m) (written free) /\
  returned capped = Z.min m (returned free) /\
  returned capped <= m.
Proof.
  intros capped free.
  destruct (returned_counts_written_aux self digits_range min_length max_length
              (Some m) dedupe) as [Rc _].
  destruct (returned_counts_written_aux self digits_range min_length max_length
              None dedupe) as [Rf _].
  fold capped in Rc. fold free in Rf.
  assert (W : written capped = take (Z.to_nat m) (written free)).
  { subst capped free. rewrite !generate_as_loop.
    apply (loop_cap (enumeration self digits_range) st0 st0_counted). simpl. lia. }
  split; [exact W|]. rewrite Rc, Rf, W, length_take. lia.
Qed.

End Cap.

Lemma cap_truncates_witness :
  written (generate_cartesian_with_rules demo [0; 7] 7 15 (Some 3) true) =
  take 3 (written (generate_cartesian_with_rules demo [0; 7] 7 15 None true)).
Proof.
  apply (cap_truncates 7 15 true 3 ltac:(lia) demo [0; 7]).
Defined.

(** ** Where a written candidate comes from *)

Lemma variant_pairs_elem (adj noun a b : str) :
  (a, b) ∈ variant_pairs adj noun <->
  (a ∈ base (get_word_variations adj true) /\
   (b ∈ numeric_leet (get_word_variations noun false) \/
    b ∈ symbol_leet (get_word_variations noun false))) \/
  (b ∈ base (get_word_variations noun false) /\
   (a ∈ numeric_leet (get_word_variations adj true) \/
    a ∈ symbol_leet (get_word_variations adj true))).
Proof.
  unfold variant_pairs, valid_combinations.
  cbn [flat_map vget fst snd]. rewrite app_nil_r, !elem_of_app.
  assert (P : forall xs ys : list str,
             (a, b) ∈ flat_map (fun x => map (fun y => (x, y)) ys) xs <->
             a ∈ xs /\ b ∈ ys).
  { intros xs ys. rewrite list_elem_of_In, in_flat_map. split.
    - intros (x & Hx & H). apply in_map_iff in H as (y & [= -> ->] & Hy).
      split; now apply list_elem_of_In.
    - intros [Hx Hy]. exists a. split; [now apply list_elem_of_In|].
      apply in_map_iff. exists b. split; [reflexivity | now apply list_elem_of_In]. }
  rewrite !P. tauto.
Qed.

Lemma enumeration_elem (self : analyzer) (digits_range : list Z) (c : str) :
  c ∈ enumeration self digits_range <->
  exists adj noun a b n,
    adj ∈ adjectives self /\ noun ∈ nouns self /\
    (a, b) ∈ variant_pairs adj noun /\ n ∈ digits_range /\
    c = (a ++ b) ++ Py.fmt02d n.
Proof.
  unfold enumeration. rewrite list_elem_of_In, in_flat_map. split.
  - intros (adj & Hadj & H). apply in_flat_map in H as (noun & Hnoun & H).
    apply in_flat_map in H as ([a b] & Hab & H).
    apply in_map_iff in H as (n & <- & Hn).
    exists adj, noun, a, b, n.
    rewrite <- !list_elem_of_In in *. rewrite sorted_set_elem in Hadj, Hnoun.
    auto.
  - intros (adj & noun & a & b & n & Hadj & Hnoun & Hab & Hn & ->).
    exists adj. rewrite <- list_elem_of_In, sorted_set_elem. split; [exact Hadj|].
    apply in_flat_map. exists noun.
    rewrite <- list_elem_of_In, sorted_set_elem. split; [exact Hnoun|].
    apply in_flat_map. exists (a, b). split; [now apply list_elem_of_In|].
    apply in_map_iff. exists n. split; [reflexivity | now apply list_elem_of_In].
Qed.

Lemma loop_origin (min_length max_length : Z) (max_results : option Z)
    (dedupe : bool) (cands : list str) (st : gen_state) (c : str) :
  c ∈ written (finish (for_each cands
                         (emit min_length max_length max_results dedupe) st)) ->
  c ∈ out_f st \/ c ∈ cands.
Proof.
  revert st. induction cands as [|x cands IH]; intros st.
  - simpl. now left.
  - cbn [for_each]. unfold emit at 1.
    destruct (_ || _).
    + intros H. apply IH in H as [H|H]; [now left | right; now right].
    + assert (O : forall y, y ∈ out_f (process_candidate x st dedupe) ->
                            y ∈ out_f st \/ y = x).
      { intros y. destruct (process_candidate_cases x st dedupe)
          as [(_ & _ & -> & _)|(_ & -> & _)]; [|now left].
        rewrite elem_of_app, list_elem_of_singleton. tauto. }
      destruct (reached _ _).
      * simpl. intros H. apply O in H as [H| ->]; [now left | right; left].
      * intros H. apply IH in H as [H|H]; [|right; now right].
        apply O in H as [H| ->]; [now left | right; left].
Qed.

(** X18: every candidate written is adjective variant + noun variant + formatted
    suffix value for an adjective and a noun of the vocabulary and a value
    of [digits_range], where the variants come from one of the four type
    combinations: the adjective from its ['base'] list and the noun from
    its ['numeric_leet'] or ['symbol_leet'] list, or the noun from its
    ['base'] list and the adjective from its ['numeric_leet'] or
    ['symbol_leet'] list.  The lists of one word may overlap, see
    [base_form_among_variants]. *)
Theorem written_structure (self : analyzer) (digits_range : list Z)
    (min_length max_length : Z) (max_results : option Z) (dedupe : bool)
    (c : str) :
  c ∈ written (generate_cartesian_with_rules self digits_range min_length
                 max_length max_results dedupe) ->
  exists adj noun a b n,
    adj ∈ adjectives self /\ noun ∈ nouns self /\ n ∈ digits_range /\
    c = a ++ b ++ Py.fmt02d n /\
    ((a ∈ base (get_word_variations adj true) /\
      (b ∈ numeric_leet (get_word_variations noun false) \/
       b ∈ symbol_leet (get_word_variations noun false))) \/
     (b ∈ base (get_word_variations noun false) /\
      (a ∈ numeric_leet (get_word_variations adj true) \/
       a ∈ symbol_leet (get_word_variations adj true)))).
Proof.
  rewrite generate_as_loop. intros H.
  apply loop_origin in H as [H|H]; [inversion H|].
  apply enumeration_elem in H as (adj & noun & a & b & n & Hadj & Hnoun & Hab & Hn & ->).
  exists adj, noun, a, b, n. rewrite <- app_assoc.
  repeat (split; [assumption || reflexivity|]).
  now apply variant_pairs_elem in Hab.
Qed.

Lemma written_structure_witness :
  exists adj noun a b n,
    adj ∈ adjectives demo /\ noun ∈ nouns demo /\ n ∈ [0; 7] /\
    lit "red[ion00" = a ++ b ++ Py.fmt02d n /\
    ((a ∈ base (get_word_variations adj true) /\
      (b ∈ numeric_leet (get_word_variations noun false) \/
       b ∈ symbol_leet (get_word_variations noun false))) \/
     (b ∈ base (get_word_variations noun false) /\
      (a ∈ numeric_leet (get_word_variations adj true) \/
       a ∈ symbol_leet (get_word_variations adj true)))).
Proof.
  apply (written_structure demo [0; 7] 7 15 (Some 3) true).
  vm_compute. right. right. left.
Defined.

(** A noun that already holds a digit: its capitalised form is its base form
    and one of its numeric variants, so [redL1on07] is written although both
    words are in base form. *)
Example base_form_among_variants :
  let self := {| adjectives := {[ lit "red" ]}; nouns := {[ lit "l1on" ]};
                 password_patterns := [] |} in
  lit "redL1on07" ∈ written (generate_cartesian_with_rules self [7] 7 15 None true) /\
  base (get_word_variations (lit "red") true) = [lit "red"] /\
  base (get_word_variations (lit "l1on") false) = [lit "L1on"] /\
  lit "L1on" ∈ numeric_leet (get_word_variations (lit "l1on") false).
Proof.
  cbv zeta. repeat split; try (vm_compute; reflexivity);
    apply list_elem_of_In; vm_compute; tauto.
Qed.

(** ** Alphabetic vocabulary and two-digit suffixes *)

Lemma alpha_no_digit_symbol (w : str) :
  forallb Py.is_alpha w = true ->
  existsb Py.is_digit w = false /\ existsb is_symbol w = false.
Proof.
  induction w as [|c w IH]; [now split|]. simpl.
  intros H. apply andb_true_iff in H as [Hc Hw]. destruct (IH Hw) as [-> ->].
  rewrite !orb_false_r. split.
  - destruct (Py.is_digit c) eqn:E; [|reflexivity].
    apply digit_not_alpha in E. congruence.
  - destruct (is_symbol c) eqn:E; [|reflexivity].
    apply symbol_not_alpha in E. congruence.
Qed.

Lemma variant_length (word v : str) :
  v ∈ apply_leet_transformations word -> length v = length word.
Proof.
  intros H. apply apply_leet_transformations_elem in H
    as [->|(i & c & s & _ & _ & ->)].
  - apply length_cap_first.
  - now rewrite length_cap_first, length_insert, length_lower.
Qed.

Lemma lower_preserves_alpha (w : str) :
  forallb Py.is_alpha w = true -> forallb Py.is_alpha (Py.lower w) = true.
Proof. intros H. now apply lower_all_alpha, lower_alpha. Qed.

(** X19: when the vocabulary is alphabetic and the suffix values lie between 0
    and 99, every enumerated candidate is a valid leet combination, so the
    revalidation rejects nothing, and its length is that of its adjective
    plus that of its noun plus 2. *)
Theorem enumeration_sound (self : analyzer) (digits_range : list Z) (c : str) :
  (forall w, w ∈ adjectives self -> forallb Py.is_alpha w = true) ->
  (forall w, w ∈ nouns self -> forallb Py.is_alpha w = true) ->
  (forall n, n ∈ digits_range -> 0 <= n <= 99) ->
  c ∈ enumeration self digits_range ->
  is_valid_leet_combination c = true /\
  exists adj noun, adj ∈ adjectives self /\ noun ∈ nouns self /\
                   length c = (length adj + length noun + 2)%nat.
Proof.
  intros HA HN HD Hc.
  apply enumeration_elem in Hc as (adj & noun & a & b & n & Hadj & Hnoun & Hab & Hn & ->).
  destruct (fmt02d_two_digits n (HD n Hn)) as (d1 & d2 & Hf & _).
  destruct (classifier_ignores_suffix_aux (a ++ b) n (HD n Hn)) as [_ ->].
  rewrite !existsb_app.
  destruct (word_variations_classified_aux adj true) as (Ba & Na & Sa).
  destruct (word_variations_classified_aux noun false) as (Bn & Nn & Sn).
  cbv zeta in *.
  apply variant_pairs_elem in Hab. rewrite Ba, Bn, !list_elem_of_singleton in Hab.
  assert (La : forall x, (x ∈ numeric_leet (get_word_variations adj true) \/
                          x ∈ symbol_leet (get_word_variations adj true)) ->
                         length x = length adj /\
                         xorb (existsb Py.is_digit x) (existsb is_symbol x) = true).
  { intros x [H|H]; [apply Na in H | apply Sa in H];
      destruct H as (u & Hu & _ & -> & -> & ->);
      (split; [|reflexivity]); rewrite length_lower; now apply variant_length. }
  assert (Ln : forall x, (x ∈ numeric_leet (get_word_variations noun false) \/
                          x ∈ symbol_leet (get_word_variations noun false)) ->
                         length x = length noun /\
                         xorb (existsb Py.is_digit x) (existsb is_symbol x) = true).
  { intros x [H|H]; [apply Nn in H | apply Sn in H];
      destruct H as (u & Hu & _ & -> & -> & ->);
      (split; [|reflexivity]); now apply variant_length. }
  assert (Len : length a = length adj /\ length b = length noun /\
                xorb (existsb Py.is_digit a || existsb Py.is_digit b)
                     (existsb is_symbol a || existsb is_symbol b) = true).
  { destruct Hab as [[-> Hb]|[-> Ha]].
    - destruct (Ln b Hb) as [L X].
      destruct (alpha_no_digit_symbol (Py.lower adj)
                  (lower_preserves_alpha adj (HA adj Hadj))) as [-> ->].
      rewrite length_lower. auto.
    - destruct (La a Ha) as [L X].
      destruct (alpha_no_digit_symbol (Py.capitalize noun)
                  (capitalize_alpha noun (HN noun Hnoun))) as [-> ->].
      rewrite !orb_false_r.
      destruct noun; simpl; rewrite ?length_lower; auto. }
  destruct Len as (L1 & L2 & X). split; [exact X|].
  exists adj, noun. split; [exact Hadj|]. split; [exact Hnoun|].
  rewrite !length_app, Hf, L1, L2. simpl. lia.
Qed.

Lemma enumeration_sound_witness :
  is_valid_leet_combination (lit "red[ion07") = true.
Proof.
  apply (enumeration_sound demo [0; 7] (lit "red[ion07")).
  - intros w Hw. unfold demo in Hw. cbn [adjectives] in Hw.
    apply elem_of_list_to_set in Hw.
    repeat (apply elem_of_cons in Hw as [->|Hw]; [reflexivity|]). inversion Hw.
  - intros w Hw. unfold demo in Hw. cbn [nouns] in Hw.
    apply elem_of_list_to_set in Hw.
    repeat (apply elem_of_cons in Hw as [->|Hw]; [reflexivity|]). inversion Hw.
  - intros n Hn.
    repeat (apply elem_of_cons in Hn as [->|Hn]; [lia|]). inversion Hn.
  - vm_compute. right. right. right. left.
Defined.

(** ** [generate_wordlist_fast] *)

Lemma built_map_lookup {V : Type} (f : str -> V) (words : list str) (w : str) :
  w ∈ words ->
  foldl (fun (m : gmap str V) (x : str) => <[ x := f x ]> m) ∅ words !! w
  = Some (f w).
Proof.
  assert (G : forall (m : gmap str V),
             (w ∈ words \/ m !! w = Some (f w)) ->
             foldl (fun (m : gmap str V) (x : str) => <[ x := f x ]> m) m words !! w
             = Some (f w)).
  { induction words as [|x words IH]; intros m [H|H]; simpl.
    - inversion H.
    - exact H.
    - apply IH. apply elem_of_cons in H as [->|H]; [right | now left].
      apply lookup_insert_eq.
    - apply IH. right. destruct (decide (x = w)) as [->|Hne].
      + apply lookup_insert_eq.
      + now rewrite lookup_insert_ne. }
  intros H. apply G. now left.
Qed.

Lemma map_as_flat_map {A B : Type} (f : A -> B) (xs : list A) :
  map f xs = flat_map (fun x => [f x]) xs.
Proof. induction xs as [|x xs IH]; [reflexivity|]. simpl. now rewrite IH. Qed.

Section Fast.

Variable max_combinations : option Z.

Abbreviation full := (fast_full max_combinations).
Abbreviation push := (fast_push max_combinations).

Lemma push_nil (st : fast_state) : push [] st = st.
Proof.
  unfold fast_push. destruct st as [n ls].
  destruct (fast_room _ _); rewrite ?take_nil; simpl;
    now rewrite Z.add_0_r, app_nil_r.
Qed.

Lemma push_full (ls : list str) (st : fast_state) :
  full st = true -> push ls st = st.
Proof.
  unfold fast_full, fast_push, fast_room.
  destruct max_combinations as [m|]; [|discriminate].
  destruct (m =? 0); [discriminate|]. simpl. intros H. apply Z.leb_le in H.
  replace (Z.to_nat (m - count st)) with 0%nat by lia.
  destruct st as [n l]. simpl. now rewrite Z.add_0_r, app_nil_r.
Qed.

Lemma push_app (l1 l2 : list str) (st : fast_state) :
  push (l1 ++ l2) st = push l2 (push l1 st).
Proof.
  unfold fast_push, fast_room.
  destruct max_combinations as [m|]; [destruct (m =? 0)|]; simpl.
  - rewrite length_app, <- app_assoc. f_equal. lia.
  - set (k := Z.to_nat (m - count st)).
    replace (Z.to_nat (m - (count st + Z.of_nat (length (take k l1)))))
      with (k - length l1)%nat
      by (rewrite length_take; lia).
    rewrite take_app, length_app, <- app_assoc. f_equal. lia.
  - rewrite length_app, <- app_assoc. f_equal. lia.
Qed.

Lemma for_until_push {A : Type} (g : A -> list str) (xs : list A)
    (body : A -> fast_state -> fast_state) (st : fast_state) :
  (forall x s, x ∈ xs -> full s = false -> body x s = push (g x) s) ->
  for_until full xs body st = push (flat_map g xs) st.
Proof.
  revert st. induction xs as [|x xs IH]; intros st H.
  - simpl. now rewrite push_nil.
  - cbn [for_until flat_map]. destruct (full st) eqn:E.
    + now rewrite push_full.
    + rewrite (H x st) by (left || exact E). rewrite push_app.
      apply IH. intros y s Hy. apply H. now right.
Qed.

Lemma write_one (password : str) (st : fast_state) :
  full st = false ->
  {| count := count st + 1; f_lines := f_lines st ++ [password] |} =
  push [password] st.
Proof.
  unfold fast_full, fast_push, fast_room.
  destruct max_combinations as [m|]; [|reflexivity].
  destruct (m =? 0); [reflexivity|]. simpl. intros H. apply Z.leb_gt in H.
  rewrite take_ge by (simpl; lia). reflexivity.
Qed.

Lemma generate_wordlist_fast_push (self : analyzer) :
  generate_wordlist_fast self max_combinations =
  push (fast_enumeration self) {| count := 0; f_lines := [] |}.
Proof.
  unfold generate_wordlist_fast, fast_enumeration.
  apply (for_until_push
           (fun adjective =>
              flat_map (fun noun =>
                flat_map (fun noun_var =>
                  map (fun i => adjective ++ noun_var ++ Py.fmt02d i) range100)
                  (apply_leet_transformations noun))
                (Py.sorted_set (nouns self)))).
  intros adjective s1 _ _.
  apply (for_until_push
           (fun noun =>
              flat_map (fun noun_var =>
                map (fun i => adjective ++ noun_var ++ Py.fmt02d i) range100)
                (apply_leet_transformations noun))).
  intros noun s2 Hnoun _.
  rewrite (built_map_lookup apply_leet_transformations _ noun Hnoun).
  cbn [default from_option].
  apply (for_until_push
           (fun noun_var =>
              map (fun i => adjective ++ noun_var ++ Py.fmt02d i) range100)).
  intros noun_var s3 _ _.
  rewrite map_as_flat_map.
  apply for_until_push. intros i s4 _ Hs. now apply write_one.
Qed.

End Fast.

(** X20: [generate_wordlist_fast] writes adjective + noun variant + suffix for
    all adjectives, nouns, variants and the values 0..99, in that order;
    a non-zero [max_combinations] keeps the first [max_combinations] lines
    (none when it is negative), and [count] is the number of lines. *)
Theorem wordlist_fast_exact (self : analyzer) (max_combinations : option Z) :
  let r := generate_wordlist_fast self max_combinations in
  f_lines r =
    match max_combinations with
    | None => fast_enumeration self
    | Some m => if m =? 0 then fast_enumeration self
                else take (Z.to_nat m) (fast_enumeration self)
    end /\
  count r = Z.of_nat (length (f_lines r)).
Proof.
  intros r. subst r. rewrite generate_wordlist_fast_push.
  unfold fast_push, fast_room. cbn [count f_lines].
  destruct max_combinations as [m|]; [destruct (m =? 0)|]; cbn [app].
  - split; [reflexivity | lia].
  - rewrite Z.sub_0_r. split; [reflexivity | lia].
  - split; [reflexivity | lia].
Qed.

(** ** Saving and loading the vocabulary *)


Lemma CR_space : PyIO.is_space PyIO.CR = true.
Proof. reflexivity. Qed.













(** *** Missing files *)

Lemma load_components_missing (self : analyzer) (adj_file noun_file : string)
    (fs : gmap string str) :
  let loaded := load_components self adj_file noun_file fs in
  (snd loaded = true <-> is_Some (fs !! adj_file) /\ is_Some (fs !! noun_file)) /\
  (snd loaded = false -> nouns (fst loaded) = nouns self) /\
  (fs !! adj_file = None -> fst loaded = self) /\
  (forall text, fs !! adj_file = Some text -> fs !! noun_file = None ->
     snd loaded = false /\
     adjectives (fst loaded) =
       read_words (PyIO.lines (PyIO.universal_newlines text))) /\
  password_patterns (fst loaded) = password_patterns self.
Proof.
  intros loaded. subst loaded. unfold load_components, PyIO.read_lines.
  destruct (fs !! adj_file) as [ta|] eqn:EA; cbn [fmap option_fmap option_map].
  - destruct (fs !! noun_file) as [tn|] eqn:EN;
      cbn [fmap option_fmap option_map fst snd adjectives nouns password_patterns].
    + split; [split; [eauto | reflexivity]|].
      split; [discriminate|]. split; [discriminate|].
      split; [discriminate | reflexivity].
    + split; [split; [discriminate | intros [_ [x Hx]]; discriminate]|].
      split; [reflexivity|]. split; [discriminate|].
      split; [|reflexivity]. intros t [= <-] _. now split.
  - cbn [fst snd]. split; [split; [discriminate | intros [[x Hx] _]; discriminate]|].
    split; [reflexivity|]. split; [reflexivity|].
    split; [discriminate | reflexivity].
Qed.

(** *** Words read from a file *)

Lemma lstrip_head (s : str) :
  match PyIO.lstrip s with
  | [] => True
  | c :: _ => PyIO.is_space c = false
  end.
Proof.
  induction s as [|c s IH]; [exact I|]. simpl.
  destruct (PyIO.is_space c) eqn:E; [exact IH | exact E].
Qed.

Lemma lstrip_suffix (s : str) : exists pre, s = pre ++ PyIO.lstrip s.
Proof.
  induction s as [|c s [pre IH]]; [now exists []|]. simpl.
  destruct (PyIO.is_space c).
  - exists (c :: pre). simpl. now rewrite <- IH.
  - now exists [].
Qed.

Lemma strip_ends (s : str) :
  PyIO.strip s <> [] ->
  (exists c tl, PyIO.strip s = c :: tl /\ PyIO.is_space c = false) /\
  (exists init c, PyIO.strip s = init ++ [c] /\ PyIO.is_space c = false).
Proof.
  unfold PyIO.strip, PyIO.rstrip. intros Hne.
  pose proof (lstrip_head (rev (PyIO.lstrip s))) as Hlast.
  destruct (lstrip_suffix (rev (PyIO.lstrip s))) as [pre Hpre].
  destruct (PyIO.lstrip (rev (PyIO.lstrip s))) as [|x r] eqn:E;
    [simpl in Hne; congruence|].
  split.
  - (* the first character is the first of [lstrip s] *)
    pose proof (lstrip_head s) as Hfirst.
    apply (f_equal (@rev ascii)) in Hpre.
    rewrite rev_involutive, rev_app_distr in Hpre.
    destruct (rev (x :: r)) as [|y t] eqn:Er.
    + apply (f_equal (@length ascii)) in Er. rewrite length_rev in Er.
      discriminate.
    + exists y, t. split; [reflexivity|].
      rewrite Hpre in Hfirst. exact Hfirst.
  - exists (rev r), x. split; [reflexivity | exact Hlast].
Qed.

(** X22: a word loaded from a file is a stripped line of that file: it is not
    empty and neither starts nor ends with whitespace. *)
Theorem read_words_clean (file_lines : list str) (w : str) :
  w ∈ read_words file_lines ->
  w <> [] /\
  (exists line, line ∈ file_lines /\ w = PyIO.strip line) /\
  (exists c tl, w = c :: tl /\ PyIO.is_space c = false) /\
  (exists init c, w = init ++ [c] /\ PyIO.is_space c = false).
Proof.
  unfold read_words. rewrite elem_of_list_to_set, list_elem_of_In, in_map_iff.
  intros (line & <- & Hl). apply filter_In in Hl as [Hl Hn].
  assert (Hne : PyIO.strip line <> []).
  { intros E. rewrite E in Hn. discriminate. }
  split; [exact Hne|]. split.
  - exists line. split; [now apply list_elem_of_In | reflexivity].
  - now apply strip_ends.
Qed.

Lemma read_words_clean_witness :
  lit "wild" <> [].
Proof.
  apply (read_words_clean [lit "  wild" ++ [PyIO.LF]; lit "   " ++ [PyIO.LF]]
           (lit "wild")).
  vm_compute. reflexivity.
Defined.

(** ** The fast word list is not filtered *)

Lemma range100_elem (i : Z) : 0 <= i <= 99 -> i ∈ range100.
Proof.
  intros H. unfold range100. apply list_elem_of_In, in_map_iff.
  exists (Z.to_nat i). split; [lia|]. apply in_seq. lia.
Qed.

Lemma cap_first_variant (word : str) :
  word <> [] -> cap_first word ∈ apply_leet_transformations word.
Proof.
  destruct word as [|a w]; [congruence|]. intros _.
  unfold apply_leet_transformations. rewrite sorted_set_elem.
  apply leet_fold_mono. now apply elem_of_singleton.
Qed.

Lemma cap_first_alpha (w : str) :
  forallb Py.is_alpha w = true -> forallb Py.is_alpha (cap_first w) = true.
Proof.
  destruct w as [|c w]; [reflexivity|]. unfold cap_first, Py.isalpha_c.
  simpl. intros H. apply andb_true_iff in H as [Hc Hw]. rewrite Hc. simpl.
  unfold Py.is_alpha at 1. now rewrite (alpha_upper_c c Hc), Hw.
Qed.

(** X23: the fast word list is not validated: for an alphabetic adjective and
    noun of the vocabulary it holds the base + base candidate, which
    [is_valid_leet_combination] rejects. *)
Theorem wordlist_fast_unfiltered (self : analyzer) (adj noun : str) (i : Z) :
  adj ∈ adjectives self -> noun ∈ nouns self -> noun <> [] ->
  forallb Py.is_alpha adj = true -> forallb Py.is_alpha noun = true ->
  0 <= i <= 99 ->
  let password := adj ++ cap_first noun ++ Py.fmt02d i in
  password ∈ f_lines (generate_wordlist_fast self None) /\
  is_valid_leet_combination password = false.
Proof.
  intros Hadj Hnoun Hne Ha Hn Hi password. split.
  - rewrite (generate_wordlist_fast_push None).
    unfold fast_push, fast_room. cbn [f_lines app].
    unfold fast_enumeration. apply list_elem_of_In, in_flat_map.
    exists adj. split; [now apply list_elem_of_In, sorted_set_elem|].
    apply in_flat_map. exists noun.
    split; [now apply list_elem_of_In, sorted_set_elem|].
    apply in_flat_map. exists (cap_first noun).
    split; [now apply list_elem_of_In, cap_first_variant|].
    apply in_map_iff. exists i. split; [reflexivity|].
    now apply list_elem_of_In, range100_elem.
  - subst password. rewrite app_assoc.
    destruct (classifier_ignores_suffix_aux (adj ++ cap_first noun) i Hi) as [_ ->].
    rewrite !existsb_app.
    destruct (alpha_no_digit_symbol adj Ha) as [-> ->].
    destruct (alpha_no_digit_symbol (cap_first noun) (cap_first_alpha noun Hn))
      as [-> ->].
    reflexivity.
Qed.

Lemma wordlist_fast_unfiltered_witness :
  lit "wildLion07" ∈ f_lines (generate_wordlist_fast demo None).
Proof.
  apply (wordlist_fast_unfiltered demo (lit "wild") (lit "lion") 7);
    try reflexivity; try discriminate; try lia.
Defined.


